(** * Button: configuration resolution, loading automaton, click gate and
    render decisions of [components/button/button.tsx].

    The component is a function of its props, of the values it reads from the
    enclosing contexts and of three pieces of instance state (the inner
    loading flag, the two-Chinese-characters flag and the first-mount ref).
    Each hook body is embedded as a function over that data.

    What the component relies on from outside is written as explicit state
    passing:
    - React runs the clean-up of a layout effect before it runs the effect
      again, runs an effect again only when one of its dependencies differs
      under [Object.is], and runs the clean-up on removal;
    - [setTimeout] puts a single-shot timer in a queue, the timer fires once
      the time it waits for its delay has elapsed (whole milliseconds, at
      most [2^31 - 1] of them), [clearTimeout] takes it out of the queue.

    Class names, styles and the style engine are left out; of the class map
    only the values stored under the keys the properties speak about are
    kept. *)

From Stdlib Require Import Bool Arith List String QArith Qminmax Qround Lia Lqa.
Import ListNotations.
Open Scope string_scope.

(* ================================================================== *)
(** ** JavaScript values *)

Module JS.

(** A [number]: the comparisons the component performs ([<= 0], [> 0],
    [!== 0], [Number.isNaN]) are exact, so a finite double is kept as the
    rational it denotes. *)
Inductive number : Type :=
| NaN
| NegInfinity
| Finite (q : Q)
| Infinity.

(** The values a prop of type [React.ReactNode] (or an ill-typed [delay])
    can hold.  [Obj] is any non-null object that is not an array, for
    instance a React element. *)
#[warnings="-register-all"]
Inductive value : Type :=
| Undefined
| Null
| Bool (b : bool)
| Num (n : number)
| Str (s : string)
| Obj (ref : nat)
| Arr (items : list value).

Inductive type_tag : Type :=
| TUndefined | TObject | TBoolean | TNumber | TString.

Definition typeof (v : value) : type_tag :=
  match v with
  | Undefined => TUndefined
  | Null => TObject
  | Bool _ => TBoolean
  | Num _ => TNumber
  | Str _ => TString
  | Obj _ => TObject
  | Arr _ => TObject
  end.

Definition is_number (v : value) : bool :=
  match typeof v with TNumber => true | _ => false end.

(** [Number.isNaN(v)]: true for the number NaN only, without coercion. *)
Definition Number_isNaN (v : value) : bool :=
  match v with Num NaN => true | _ => false end.

(** [n <= 0] and [n > 0]; both are false on NaN. *)
Definition le0 (n : number) : bool :=
  match n with
  | NaN => false
  | NegInfinity => true
  | Finite q => Qle_bool q 0
  | Infinity => false
  end.

Definition gt0 (n : number) : bool :=
  match n with
  | NaN => false
  | NegInfinity => false
  | Finite q => negb (Qle_bool q 0)
  | Infinity => true
  end.

Definition num_truthy (n : number) : bool :=
  match n with
  | NaN => false
  | Finite q => negb (Qeq_bool q 0)
  | NegInfinity | Infinity => true
  end.

Definition str_nonempty (s : string) : bool :=
  match s with EmptyString => false | String _ _ => true end.

(** ToBoolean. *)
Definition truthy (v : value) : bool :=
  match v with
  | Undefined | Null => false
  | Bool b => b
  | Num n => num_truthy n
  | Str s => str_nonempty s
  | Obj _ | Arr _ => true
  end.

(** [v === 0]. *)
Definition is_zero (v : value) : bool :=
  match v with
  | Num (Finite q) => Qeq_bool q 0
  | _ => false
  end.

(** Truthiness of an optional string-valued prop ([undefined] is [None]). *)
Definition opt_truthy (o : option string) : bool :=
  match o with Some s => str_nonempty s | None => false end.

(** Truthiness of an optional boolean. *)
Definition flag (o : option bool) : bool :=
  match o with Some b => b | None => false end.

(** [a ?? b]. *)
Definition nullish {A} (a : option A) (b : A) : A :=
  match a with Some x => x | None => b end.

(** [Object.is] on numbers (the sign of zero is not represented). *)
Definition same_number (a b : number) : bool :=
  match a, b with
  | NaN, NaN => true
  | NegInfinity, NegInfinity => true
  | Infinity, Infinity => true
  | Finite p, Finite q => Qeq_bool p q
  | _, _ => false
  end.

End JS.

(* ================================================================== *)
(** ** Props and ambient context *)

Module Button.
Import JS.

(** Modelled from the spec: the declaration of [ButtonType] lives in
    [buttonHelpers].  Its members are the legacy types of the fixed mapping
    table (default, primary, dashed, link, text), which are the keys of
    [ButtonTypeMap] below. *)
Inductive ButtonType : Type :=
| type_default | type_primary | type_dashed | type_link | type_text.

(** [ButtonColorType] and [ButtonVariantType] are string literal unions. *)
Definition ButtonColorType := string.
Definition ButtonVariantType := string.

(** [[color?, variant?]] *)
Definition ColorVariantPairType : Type :=
  (option ButtonColorType * option ButtonVariantType)%type.

(** The [loading] prop: [boolean | { delay?: number; icon?: ReactNode }],
    possibly unset.  [delay] is kept as a raw value because the code checks
    its run-time type. *)
Inductive LoadingProp : Type :=
| LUndefined
| LNull
| LBool (b : bool)
| LObject (delay : value) (icon : value).

(** A property of the props object: not a key, a key bound to [undefined],
    or a key bound to a value. *)
Inductive field (A : Type) : Type :=
| Missing
| Unset
| Given (a : A).
Arguments Missing {A}.
Arguments Unset {A}.
Arguments Given {A} a.

Definition event := nat.
Definition handler := nat.

Record ButtonProps : Type := {
  loading : LoadingProp;
  color : option ButtonColorType;
  variant : option ButtonVariantType;
  type : option ButtonType;
  danger : option bool;
  shape : option string;
  disabled : option bool;
  children : value;
  icon : value;
  href : field string;
  onClick : option handler;
  autoInsertSpace : option bool
}.

(** The [button] entry of [ConfigContext]. *)
Record ButtonConfig : Type := {
  ctx_shape : option string;
  ctx_color : option ButtonColorType;
  ctx_variant : option ButtonVariantType
}.

(** Props with every optional field left out. *)
Definition no_props : ButtonProps :=
  {| loading := LUndefined; color := None; variant := None; type := None;
     danger := None; shape := None; disabled := None;
     children := Undefined; icon := Undefined; href := Missing;
     onClick := None; autoInsertSpace := None |}.

(** Props that set [type] and nothing else. *)
Definition only_type (t : ButtonType) : ButtonProps :=
  {| loading := LUndefined; color := None; variant := None; type := Some t;
     danger := None; shape := None; disabled := None;
     children := Undefined; icon := Undefined; href := Missing;
     onClick := None; autoInsertSpace := None |}.

(* ------------------------------------------------------------------ *)
(** *** Color and variant *)

Definition ButtonTypeMap (t : ButtonType) : option ColorVariantPairType :=
  match t with
  | type_default => Some (Some "default", Some "outlined")
  | type_primary => Some (Some "primary", Some "solid")
  | type_dashed => Some (Some "default", Some "dashed")
  | type_link => Some (Some "link", Some "link")
  | type_text => Some (Some "default", Some "text")
  end.

(** [type || 'default'] *)
Definition mergedType (p : ButtonProps) : ButtonType :=
  match type p with Some t => t | None => type_default end.

(** [danger = false] in the destructuring. *)
Definition danger_of (p : ButtonProps) : bool := flag (danger p).

(** [button?.color && button?.variant] *)
Definition context_pair (button : option ButtonConfig) : bool :=
  match button with
  | Some b => opt_truthy (ctx_color b) && opt_truthy (ctx_variant b)
  | None => false
  end.

(** The [useMemo] body computing [[mergedColor, mergedVariant]]. *)
Definition mergedColorVariant (p : ButtonProps) (button : option ButtonConfig)
  : ColorVariantPairType :=
  if opt_truthy (color p) && opt_truthy (variant p) then
    (color p, variant p)
  else if match type p with Some _ => true | None => false end
          || danger_of p then
    let colorVariantPair :=
      match ButtonTypeMap (mergedType p) with
      | Some cv => cv
      | None => (None, None)
      end in
    if danger_of p then (Some "danger", snd colorVariantPair)
    else colorVariantPair
  else if context_pair button then
    match button with
    | Some b => (ctx_color b, ctx_variant b)
    | None => (None, None)
    end
  else (Some "default", Some "outlined").

Definition mergedColor p button := fst (mergedColorVariant p button).
Definition mergedVariant p button := snd (mergedColorVariant p button).

(** [mergedColor === 'danger'] *)
Definition isDanger p button : bool :=
  match mergedColor p button with
  | Some c => String.eqb c "danger"
  | None => false
  end.

(** The four branches of the resolution, in source order. *)
Inductive Rule : Type :=
| LocalPair | LegacySugar | ContextPair | DefaultPair.

(** The condition guarding each branch, taken on its own. *)
Definition guard (r : Rule) (p : ButtonProps) (button : option ButtonConfig)
  : bool :=
  match r with
  | LocalPair => opt_truthy (color p) && opt_truthy (variant p)
  | LegacySugar =>
      match type p with Some _ => true | None => false end || danger_of p
  | ContextPair => context_pair button
  | DefaultPair => true
  end.

Definition earlier (r : Rule) : list Rule :=
  match r with
  | LocalPair => []
  | LegacySugar => [LocalPair]
  | ContextPair => [LocalPair; LegacySugar]
  | DefaultPair => [LocalPair; LegacySugar; ContextPair]
  end.

(** A rule fires when its guard holds and no earlier guard does. *)
Definition fires (r : Rule) p button : Prop :=
  guard r p button = true /\
  forall r', In r' (earlier r) -> guard r' p button = false.

(** What each branch returns. *)
Definition outcome (r : Rule) (p : ButtonProps) (button : option ButtonConfig)
  : ColorVariantPairType :=
  match r with
  | LocalPair => (color p, variant p)
  | LegacySugar =>
      let colorVariantPair :=
        match ButtonTypeMap (mergedType p) with
        | Some cv => cv
        | None => (None, None)
        end in
      if danger_of p then (Some "danger", snd colorVariantPair)
      else colorVariantPair
  | ContextPair =>
      match button with
      | Some b => (ctx_color b, ctx_variant b)
      | None => (None, None)
      end
  | DefaultPair => (Some "default", Some "outlined")
  end.

(** The rule selected by the guards, tried in order. *)
Definition selected (p : ButtonProps) (button : option ButtonConfig) : Rule :=
  if guard LocalPair p button then LocalPair
  else if guard LegacySugar p button then LegacySugar
  else if guard ContextPair p button then ContextPair
  else DefaultPair.

(** [customDisabled ?? disabled] with [disabled] read from
    [DisabledContext]. *)
Definition mergedDisabled (p : ButtonProps) (ctx_disabled : option bool)
  : option bool :=
  match disabled p with
  | Some b => Some b
  | None => ctx_disabled
  end.

(** [autoInsertSpace ?? contextAutoInsertSpace ?? true] *)
Definition mergedInsertSpace (p : ButtonProps) (ctx_auto : option bool)
  : bool :=
  nullish (autoInsertSpace p) (nullish ctx_auto true).

End Button.

(* ================================================================== *)
(** ** Loading: normalisation and the delayed-activation automaton *)

Module Loading.
Import JS.
Import Button.

Record LoadingConfigType : Type := {
  loading : bool;
  delay : number
}.

Definition typeof_loading (l : LoadingProp) : type_tag :=
  match l with
  | LUndefined => TUndefined
  | LNull => TObject
  | LBool _ => TBoolean
  | LObject _ _ => TObject
  end.

Definition loading_truthy (l : LoadingProp) : bool :=
  match l with
  | LUndefined | LNull => false
  | LBool b => b
  | LObject _ _ => true
  end.

(** [loading?.delay] and [loading.icon] *)
Definition delay_of (l : LoadingProp) : value :=
  match l with LObject d _ => d | _ => Undefined end.

Definition icon_of (l : LoadingProp) : value :=
  match l with LObject _ i => i | _ => Undefined end.

Definition is_object (t : type_tag) : bool :=
  match t with TObject => true | _ => false end.

(** The number held by a value whose [typeof] is ['number']. *)
Definition number_of (v : value) : number :=
  match v with Num n => n | _ => NaN end.

Definition getLoadingConfig (l : LoadingProp) : LoadingConfigType :=
  if is_object (typeof_loading l) && loading_truthy l then
    let delay := delay_of l in
    let delay :=
      if negb (Number_isNaN delay) && is_number delay
      then number_of delay else Finite 0 in
    {| loading := le0 delay; delay := delay |}
  else
    {| loading := loading_truthy l; delay := Finite 0 |}.

(** [loading = false] in the destructuring of the props. *)
Definition loading_prop (p : ButtonProps) : LoadingProp :=
  match Button.loading p with
  | LUndefined => LBool false
  | l => l
  end.

(** [loadingOrDelay] *)
Definition loadingOrDelay (p : ButtonProps) : LoadingConfigType :=
  getLoadingConfig (loading_prop p).

(* ------------------------------------------------------------------ *)
(** *** The platform timer queue *)

(** A pending [setTimeout]: its handle and the instant it is due. *)
Record Timer : Type := {
  handle : nat;
  due : option Q
}.

(** The longest delay the platform timer takes, [2^31 - 1] milliseconds. *)
Definition TIMEOUT_MAX : Z := 2147483647.

(** The time the platform timer waits for a delay it is handed: the delay
    is cut to whole milliseconds, and a delay that is then not between 1 and
    [TIMEOUT_MAX], [Infinity] included, is replaced by 1. *)
Definition timeout (d : number) : Q :=
  match d with
  | Finite q =>
      let n := Qfloor q in
      if (1 <=? n)%Z && (n <=? TIMEOUT_MAX)%Z then inject_Z n else 1%Q
  | _ => 1%Q
  end.

Definition deadline (t : Q) (d : number) : option Q :=
  Some (t + timeout d)%Q.

(** [u] is due no later than [t]. *)
Definition not_after (u t : Timer) : bool :=
  match due u, due t with
  | Some a, Some b => Qle_bool a b
  | Some _, None => true
  | None, Some _ => false
  | None, None => true
  end.

(** The queue is kept in firing order: by deadline, then by creation. *)
Fixpoint enqueue (t : Timer) (q : list Timer) : list Timer :=
  match q with
  | [] => [t]
  | u :: q' => if not_after u t then u :: enqueue t q' else t :: q
  end.

Definition dequeue (h : nat) (q : list Timer) : list Timer :=
  filter (fun t => negb (Nat.eqb (handle t) h)) q.

Definition is_due (t : Q) (u : Timer) : bool :=
  match due u with
  | Some d => Qle_bool d t
  | None => false
  end.

(* ------------------------------------------------------------------ *)
(** *** One mounted button *)

Record Instance : Type := {
  now : Q;                        (* platform clock, in milliseconds *)
  next_handle : nat;              (* next handle [setTimeout] hands out *)
  pending : list Timer;           (* platform timer queue *)
  mounted : bool;
  innerLoading : bool;            (* [useState] *)
  deps : LoadingConfigType;       (* dependencies of the committed effect *)
  delayTimer : option nat;        (* variable of the committed effect *)
  fired : list nat                (* handles whose callback has run *)
}.

Definition with_clock (t : Q) (s : Instance) : Instance :=
  {| now := t; next_handle := next_handle s; pending := pending s;
     mounted := mounted s; innerLoading := innerLoading s; deps := deps s;
     delayTimer := delayTimer s; fired := fired s |}.

Definition with_pending (q : list Timer) (s : Instance) : Instance :=
  {| now := now s; next_handle := next_handle s; pending := q;
     mounted := mounted s; innerLoading := innerLoading s; deps := deps s;
     delayTimer := delayTimer s; fired := fired s |}.

Definition with_delayTimer (v : option nat) (s : Instance) : Instance :=
  {| now := now s; next_handle := next_handle s; pending := pending s;
     mounted := mounted s; innerLoading := innerLoading s; deps := deps s;
     delayTimer := v; fired := fired s |}.

Definition with_deps (c : LoadingConfigType) (s : Instance) : Instance :=
  {| now := now s; next_handle := next_handle s; pending := pending s;
     mounted := mounted s; innerLoading := innerLoading s; deps := c;
     delayTimer := delayTimer s; fired := fired s |}.

Definition with_mounted (b : bool) (s : Instance) : Instance :=
  {| now := now s; next_handle := next_handle s; pending := pending s;
     mounted := b; innerLoading := innerLoading s; deps := deps s;
     delayTimer := delayTimer s; fired := fired s |}.

(** [setLoading(b)]; React drops updates of an unmounted component. *)
Definition setLoading (b : bool) (s : Instance) : Instance :=
  if mounted s then
    {| now := now s; next_handle := next_handle s; pending := pending s;
       mounted := mounted s; innerLoading := b; deps := deps s;
       delayTimer := delayTimer s; fired := fired s |}
  else s.

(** [setTimeout(callback, d)]: returns the handle. *)
Definition setTimeout (d : number) (s : Instance) : nat * Instance :=
  let h := next_handle s in
  (h,
   {| now := now s; next_handle := S h;
      pending := enqueue {| handle := h; due := deadline (now s) d |}
                         (pending s);
      mounted := mounted s; innerLoading := innerLoading s; deps := deps s;
      delayTimer := delayTimer s; fired := fired s |}).

Definition clearTimeout (h : nat) (s : Instance) : Instance :=
  with_pending (dequeue h (pending s)) s.

(** Body of the layout effect. *)
Definition layoutEffect (c : LoadingConfigType) (s : Instance) : Instance :=
  let s := with_delayTimer None s in
  if gt0 (delay c) then
    let (h, s') := setTimeout (delay c) s in
    with_delayTimer (Some h) s'
  else
    setLoading (loading c) s.

(** The callback handed to [setTimeout] by the effect run that obtained
    handle [h]: it clears that run's [delayTimer] and calls
    [setLoading(true)]. *)
Definition timer_callback (h : nat) (s : Instance) : Instance :=
  let s :=
    match delayTimer s with
    | Some h' => if Nat.eqb h h' then with_delayTimer None s else s
    | None => s
    end in
  setLoading true s.

Definition cleanupTimer (s : Instance) : Instance :=
  match delayTimer s with
  | Some h => with_delayTimer None (clearTimeout h s)
  | None => s
  end.

(** The platform runs the callback of timer [h] and forgets the timer. *)
Definition fire (s : Instance) (t : Timer) : Instance :=
  let h := handle t in
  let s := with_pending (dequeue h (pending s)) s in
  let s := timer_callback h s in
  {| now := now s; next_handle := next_handle s; pending := pending s;
     mounted := mounted s; innerLoading := innerLoading s; deps := deps s;
     delayTimer := delayTimer s; fired := fired s ++ [h] |}.

(** Dependencies are compared with [Object.is]. *)
Definition same_deps (a b : LoadingConfigType) : bool :=
  same_number (delay a) (delay b) && Bool.eqb (loading a) (loading b).

(** First render and commit at instant [t0]. *)
Definition mount (t0 : Q) (l : LoadingProp) : Instance :=
  let c := getLoadingConfig l in
  layoutEffect c
    {| now := t0; next_handle := O; pending := []; mounted := true;
       innerLoading := loading c; deps := c; delayTimer := None;
       fired := [] |}.

(** An update cycle with a new [loading] prop: when the dependencies
    changed, the previous effect is cleaned up and the effect runs again. *)
Definition update (l : LoadingProp) (s : Instance) : Instance :=
  if mounted s then
    let c := getLoadingConfig l in
    if same_deps (deps s) c then s
    else layoutEffect c (with_deps c (cleanupTimer s))
  else s.

(** [dt] milliseconds pass: every timer that has become due fires. *)
Definition elapse (dt : Q) (s : Instance) : Instance :=
  let t := (now s + dt)%Q in
  let s := with_clock t s in
  fold_left fire (filter (is_due t) (pending s)) s.

Definition unmount (s : Instance) : Instance :=
  with_mounted false (cleanupTimer s).

Inductive Event : Type :=
| Update (l : LoadingProp)
| Elapse (dt : Q)
| Unmount.

Definition step (s : Instance) (e : Event) : Instance :=
  match e with
  | Update l => update l s
  | Elapse dt => elapse dt s
  | Unmount => unmount s
  end.

Definition run (s : Instance) (es : list Event) : Instance :=
  fold_left step es s.

(** The states an instance can be in. *)
Inductive reachable : Instance -> Prop :=
| reach_mount t0 l : reachable (mount t0 l)
| reach_step s e : reachable s -> reachable (step s e).

Definition total (dts : list Q) : Q := fold_right Qplus 0%Q dts.

(** The timer queue holds the timer of the committed effect and nothing
    else. *)
Definition timer_inv (s : Instance) : Prop :=
  match delayTimer s with
  | Some h =>
      (exists d, pending s = [{| handle := h; due := d |}])
      /\ mounted s = true
      /\ gt0 (delay (deps s)) = true
      /\ (h < next_handle s)%nat
  | None => pending s = []
  end.

(** Without a delay the flag is the one of the committed specification. *)
Definition settled_inv (s : Instance) : Prop :=
  mounted s = true ->
  gt0 (delay (deps s)) = false ->
  innerLoading s = loading (deps s).

(** Every callback that has run belongs to a timer that is gone. *)
Definition history_inv (s : Instance) : Prop :=
  forall h, In h (fired s) ->
            (h < next_handle s)%nat /\ ~ In h (map handle (pending s)).

(** A mounted button whose effect scheduled timer [h] at instant [t0] for
    [d] milliseconds and has waited [e] of them since: the timer is still in
    the queue, the flag is [b] and the callbacks run so far are [f]. *)
Definition armed (t0 d e : Q) (h : nat) (b : bool) (f : list nat)
  (s : Instance) : Prop :=
  (now s == t0 + e)%Q
  /\ pending s = [{| handle := h; due := Some (t0 + d)%Q |}]
  /\ delayTimer s = Some h
  /\ mounted s = true
  /\ innerLoading s = b
  /\ fired s = f.

(** The same button once timer [h] has fired. *)
Definition gone_off (h : nat) (f : list nat) (s : Instance) : Prop :=
  pending s = [] /\ innerLoading s = true /\ fired s = (f ++ [h])%list.

(** "Every change of the specification to a positive delay starts again
    from the inactive state": the flag is false for as long as the new
    delay has not elapsed. *)
Definition restarts_from_idle : Prop :=
  forall (s : Instance) (l : LoadingProp) (d dt : Q),
    reachable s -> mounted s = true ->
    same_deps (deps s) (getLoadingConfig l) = false ->
    delay (getLoadingConfig l) = Finite d ->
    (0 < d)%Q -> (0 <= dt)%Q -> (dt < d)%Q ->
    innerLoading (elapse dt (update l s)) = false.

(** Handle [h] was handed out and is no longer in the queue. *)
Definition retired (h : nat) (s : Instance) : Prop :=
  (h < next_handle s)%nat /\ ~ In h (map handle (pending s)).

End Loading.

(* ================================================================== *)
(** ** Click gate *)

Module Click.
Import JS.
Import Button.

(** The element type the event is cast to before it is handed on. *)
Inductive Cast : Type :=
| AsAnchorEvent
| AsButtonEvent.

(** What a call of [handleClick] does to the outside. *)
Inductive Effect : Type :=
| preventDefault (e : event)
| call_onClick (f : handler) (c : Cast) (e : event).

(** ['href' in props] *)
Definition href_in_props (p : ButtonProps) : bool :=
  match href p with
  | Missing => false
  | Unset | Given _ => true
  end.

Definition handleClick (p : ButtonProps) (innerLoading : bool)
  (mergedDisabled : option bool) (e : event) : list Effect :=
  if innerLoading || flag mergedDisabled then
    [preventDefault e]
  else
    match onClick p with
    | Some f =>
        [call_onClick f
           (if href_in_props p then AsAnchorEvent else AsButtonEvent) e]
    | None => []
    end.

Definition is_call (x : Effect) : bool :=
  match x with call_onClick _ _ _ => true | preventDefault _ => false end.

Definition calls (log : list Effect) : nat :=
  List.length (filter is_call log).

End Click.

(* ================================================================== *)
(** ** Render decisions *)

Module Render.
Import JS.
Import Button.

(** The node placed before the children. *)
Inductive IconNode : Type :=
| IconWrapper (child : value)
| DefaultLoadingIcon (existIcon loading mount : bool).

Definition iconNode (p : ButtonProps) (innerLoading isMount : bool)
  : IconNode :=
  let loading := Loading.loading_prop p in
  if truthy (icon p) && negb innerLoading then
    IconWrapper (icon p)
  else if Loading.loading_truthy loading
          && Loading.is_object (Loading.typeof_loading loading)
          && truthy (Loading.icon_of loading) then
    IconWrapper (Loading.icon_of loading)
  else
    DefaultLoadingIcon (truthy (icon p)) innerLoading isMount.

(** [innerLoading ? 'loading' : icon] *)
Definition iconType (p : ButtonProps) (innerLoading : bool) : value :=
  if innerLoading then Str "loading" else icon p.

(** Value under the key [`${prefixCls}-icon-only`] of the class map:
    [!children && children !== 0 && !!iconType]. *)
Definition icon_only (p : ButtonProps) (innerLoading : bool) : bool :=
  negb (truthy (children p)) && negb (is_zero (children p))
  && truthy (iconType p innerLoading).

(** Value under the key [`${prefixCls}-two-chinese-chars`]:
    [hasTwoCNChar && mergedInsertSpace && !innerLoading]. *)
Definition two_chinese_chars (hasTwoCNChar mergedInsertSpace innerLoading
  : bool) : bool :=
  hasTwoCNChar && mergedInsertSpace && negb innerLoading.

(* ------------------------------------------------------------------ *)
(** *** The first-mount ref *)

(** [useRef(true)] *)
Definition isMountRef_init : bool := true.

Inductive Life : Type :=
| Rendering      (* the component function runs and reads the ref *)
| Committed      (* the mount effect runs *)
| Removed.       (* the clean-up of the mount effect runs *)

Definition life_step (current : bool) (e : Life) : bool :=
  match e with
  | Rendering => current
  | Committed => false
  | Removed => true
  end.

(** The ref after a sequence of life-cycle events. *)
Definition isMountRef_after (es : list Life) : bool :=
  fold_left life_step es isMountRef_init.

(** The values of [isMountRef.current] the successive renders pass as
    [mount]. *)
Fixpoint mount_seen (current : bool) (es : list Life) : list bool :=
  match es with
  | [] => []
  | Rendering :: es' => current :: mount_seen current es'
  | e :: es' => mount_seen (life_step current e) es'
  end.

(* ------------------------------------------------------------------ *)
(** *** Helpers of [buttonHelpers] and of React, taken as given *)

Section Helpers.

Variable isUnBorderedButtonVariant : option ButtonVariantType -> bool.
Variable isTwoCNChar : string -> bool.
Variable Children_count : value -> nat.

(** [Children.count(children) === 1 && !icon
     && !isUnBorderedButtonVariant(mergedVariant)] *)
Definition needInserted (p : ButtonProps) (button : option ButtonConfig)
  : bool :=
  Nat.eqb (Children_count (children p)) 1
  && negb (truthy (icon p))
  && negb (isUnBorderedButtonVariant (mergedVariant p button)).

(** The effect that maintains [hasTwoCNChar]; [textContent] is [None]
    while [buttonRef.current] is null.  Returns the flag after the effect. *)
Definition twoCNChar_effect (textContent : option string)
  (mergedInsertSpace needInserted hasTwoCNChar : bool) : bool :=
  match textContent with
  | None => hasTwoCNChar
  | Some buttonText =>
      if negb mergedInsertSpace then hasTwoCNChar
      else if needInserted && isTwoCNChar buttonText then
        (if negb hasTwoCNChar then true else hasTwoCNChar)
      else if hasTwoCNChar then false
      else hasTwoCNChar
  end.

(** Attributes of the rendered [<a>]. *)
Record AnchorAttrs : Type := {
  a_disabled_class : bool;     (* [`${prefixCls}-disabled`] in className *)
  a_href : option string;
  a_tabIndex : Z;
  a_aria_disabled : option bool
}.

(** Attributes of the rendered [<button>] and the [disabled] prop of the
    [Wave] around it, when there is one. *)
Record ButtonAttrs : Type := {
  b_disabled : option bool;
  b_wave : option bool
}.

Inductive Element : Type :=
| a_tag (attrs : AnchorAttrs) (icon : IconNode)
| button_tag (attrs : ButtonAttrs) (icon : IconNode).

(** The return value of the component, as far as the tag and the
    attributes above go. *)
Definition render (p : ButtonProps) (button_ctx : option ButtonConfig)
  (ctx_disabled : option bool) (innerLoading isMount : bool) : Element :=
  let mergedDisabled := Button.mergedDisabled p ctx_disabled in
  let node := iconNode p innerLoading isMount in
  match href p with
  | Given target =>
      a_tag
        {| a_disabled_class := flag mergedDisabled;
           a_href := if flag mergedDisabled then None else Some target;
           a_tabIndex := if flag mergedDisabled then (-1)%Z else 0%Z;
           a_aria_disabled := mergedDisabled |}
        node
  | Missing | Unset =>
      button_tag
        {| b_disabled := mergedDisabled;
           b_wave :=
             if negb (isUnBorderedButtonVariant
                        (mergedVariant p button_ctx))
             then Some innerLoading else None |}
        node
  end.

End Helpers.

End Render.

(* ================================================================== *)
(** ** The [classnames] function and object literals *)

Module ClassNames.
Import JS.

(** An object whose values are only tested for truthiness, as a list of
    its own keys in insertion order. *)
Definition object : Type := list (string * bool).

(** [o[k] = v]: an existing key keeps its place and takes the new value, a
    new key goes to the end. *)
Fixpoint assign (k : string) (v : bool) (o : object) : object :=
  match o with
  | [] => [(k, v)]
  | (k', v') :: o' =>
      if String.eqb k' k then (k', v) :: o'
      else (k', v') :: assign k v o'
  end.

(** The object literal [{ [k1]: v1, [k2]: v2, ... }]. *)
Definition literal (entries : list (string * bool)) : object :=
  fold_left (fun o e => assign (fst e) (snd e) o) entries [].

Fixpoint get (k : string) (o : object) : option bool :=
  match o with
  | [] => None
  | (k', v) :: o' => if String.eqb k' k then Some v else get k o'
  end.

(** The value the last entry with key [k] gives, if there is one. *)
Definition last_value (k : string) (entries : list (string * bool))
  : option bool :=
  fold_left (fun acc e => if String.eqb (fst e) k then Some (snd e) else acc)
            entries None.

(** An argument of [classNames]: a string, a falsy value, or an object. *)
Inductive arg : Type :=
| Text (s : string)
| Nothing
| Keys (o : object).

Definition optional (s : option string) : arg :=
  match s with Some s => Text s | None => Nothing end.

(** The keys of [o] whose value is truthy. *)
Definition keys_on (o : object) : list string :=
  map fst (filter snd o).

Definition pieces (x : arg) : list string :=
  match x with
  | Text s => if str_nonempty s then [s] else []
  | Nothing => []
  | Keys o => keys_on o
  end.

(** What [classNames(...)] joins with spaces. *)
Definition tokens (args : list arg) : list string :=
  flat_map pieces args.

Definition classNames (args : list arg) : string :=
  String.concat " " (tokens args).

End ClassNames.

(* ================================================================== *)
(** ** Shape, size and the class map of the component *)

Module Appearance.
Import JS.
Import Button.
Import ClassNames.

(** [SizeType] is declared in [config-provider/SizeContext]; its defined
    members are the keys of [sizeClassNameMap]. *)
Inductive SizeType : Type :=
| small | middle | large.

(** The props that only bear on the class name. *)
Record Look : Type := {
  ghost : option bool;
  block : option bool;
  iconPosition : option string;
  size : option SizeType;
  className : option string;
  rootClassName : option string
}.

(** What the hooks of the enclosing providers return. *)
Record Scope : Type := {
  prefixCls : string;               (* [getPrefixCls('btn', ...)] *)
  hashId : string;
  cssVarCls : string;
  direction : option string;
  compactSize : option SizeType;
  compactItemClassnames : string;
  groupSize : option SizeType;
  ctxSize : option SizeType;        (* the size [useSize] hands over *)
  contextClassName : option string
}.

(** [a || b], on optional strings. *)
Definition or_else (a b : option string) : option string :=
  if opt_truthy a then a else b.

(** [customizeShape || button?.shape || 'default'] *)
Definition shape_of (p : ButtonProps) (button : option ButtonConfig)
  : string :=
  match or_else (shape p)
          (match button with Some b => ctx_shape b | None => None end) with
  | Some s => if str_nonempty s then s else "default"
  | None => "default"
  end.

(** [{ large: 'lg', small: 'sm', middle: undefined }] *)
Definition sizeClassNameMap (s : SizeType) : option string :=
  match s with
  | large => Some "lg"
  | small => Some "sm"
  | middle => None
  end.

Definition first_defined {A} (a b : option A) : option A :=
  match a with Some _ => a | None => b end.

(** Modelled from the spec: [useSize] is declared in
    [config-provider/hooks/useSize]; given a function it returns what the
    function makes of the generic ambient size.  The function is
    [customizeSize ?? compactSize ?? groupSize ?? ctxSize]. *)
Definition sizeFullName (k : Look) (c : Scope) : option SizeType :=
  first_defined (size k)
    (first_defined (compactSize c)
       (first_defined (groupSize c) (ctxSize c))).

(** [sizeFullName ? (sizeClassNameMap[sizeFullName] ?? '') : ''] *)
Definition sizeCls (k : Look) (c : Scope) : string :=
  match sizeFullName k c with
  | Some s => nullish (sizeClassNameMap s) ""
  | None => ""
  end.

(** The string a [ButtonType] stands for. *)
Definition type_name (t : ButtonType) : string :=
  match t with
  | type_default => "default"
  | type_primary => "primary"
  | type_dashed => "dashed"
  | type_link => "link"
  | type_text => "text"
  end.

(** [isDanger ? 'dangerous' : mergedColor] *)
Definition mergedColorText (p : ButtonProps) (button : option ButtonConfig)
  : option string :=
  if isDanger p button then Some "dangerous" else mergedColor p button.

(** An optional string inside a template literal. *)
Definition interpolate (o : option string) : string :=
  match o with Some s => s | None => "undefined" end.

Definition is_rtl (c : Scope) : bool :=
  match direction c with Some d => String.eqb d "rtl" | None => false end.

(** [iconPosition = 'start'] in the destructuring, then
    [iconPosition === 'end']. *)
Definition icon_at_end (k : Look) : bool :=
  match iconPosition k with Some d => String.eqb d "end" | None => false end.

(** [process.env.NODE_ENV !== 'production']; the variable may be unset. *)
Definition not_production (NODE_ENV : option string) : bool :=
  match NODE_ENV with
  | Some env => negb (String.eqb env "production")
  | None => true
  end.

Section Helpers.

Variable isUnBorderedButtonVariant : option ButtonVariantType -> bool.
Variable spaceChildren : value -> bool -> value.

(** [ghost && !isUnBorderedButtonVariant(mergedVariant)] *)
Definition background_ghost (p : ButtonProps) (k : Look)
  (button : option ButtonConfig) : bool :=
  flag (ghost k) && negb (isUnBorderedButtonVariant (mergedVariant p button)).

(** The second warning sits under [process.env.NODE_ENV !== 'production']
    and is raised when its first argument,
    [!(ghost && isUnBorderedButtonVariant(mergedVariant))], is false. *)
Definition ghost_warning (NODE_ENV : option string) (p : ButtonProps)
  (k : Look) (button : option ButtonConfig) : bool :=
  not_production NODE_ENV
  && (flag (ghost k) && isUnBorderedButtonVariant (mergedVariant p button)).

(** The entries of the object literal handed to [classNames], in source
    order. *)
Definition class_entries (p : ButtonProps) (k : Look) (c : Scope)
  (button : option ButtonConfig) (ctx_auto : option bool)
  (innerLoading hasTwoCNChar : bool) : list (string * bool) :=
  let shape := shape_of p button in
  let pre := prefixCls c in
  [ (pre ++ "-" ++ shape,
     negb (String.eqb shape "default") && str_nonempty shape);
    (pre ++ "-" ++ type_name (mergedType p),
     str_nonempty (type_name (mergedType p)));
    (pre ++ "-dangerous", danger_of p);
    (pre ++ "-color-" ++ interpolate (mergedColorText p button),
     opt_truthy (mergedColorText p button));
    (pre ++ "-variant-" ++ interpolate (mergedVariant p button),
     opt_truthy (mergedVariant p button));
    (pre ++ "-" ++ sizeCls k c, str_nonempty (sizeCls k c));
    (pre ++ "-icon-only", Render.icon_only p innerLoading);
    (pre ++ "-background-ghost", background_ghost p k button);
    (pre ++ "-loading", innerLoading);
    (pre ++ "-two-chinese-chars",
     Render.two_chinese_chars hasTwoCNChar (mergedInsertSpace p ctx_auto)
       innerLoading);
    (pre ++ "-block", flag (block k));
    (pre ++ "-rtl", is_rtl c);
    (pre ++ "-icon-end", icon_at_end k) ].

Definition class_map p k c button ctx_auto innerLoading hasTwoCNChar
  : object :=
  literal (class_entries p k c button ctx_auto innerLoading hasTwoCNChar).

(** The arguments of the call that computes [classes]. *)
Definition class_args p k c button ctx_auto innerLoading hasTwoCNChar
  : list arg :=
  [ Text (prefixCls c); Text (hashId c); Text (cssVarCls c);
    Keys (class_map p k c button ctx_auto innerLoading hasTwoCNChar);
    Text (compactItemClassnames c);
    optional (className k); optional (rootClassName k);
    optional (contextClassName c) ].

Definition classes p k c button ctx_auto innerLoading hasTwoCNChar
  : string :=
  classNames (class_args p k c button ctx_auto innerLoading hasTwoCNChar).

(** The class name of the [<a>]:
    [classNames(classes, { [`${prefixCls}-disabled`]: mergedDisabled })]. *)
Definition link_class_args p k c button ctx_auto ctx_disabled
  innerLoading hasTwoCNChar : list arg :=
  [ Text (classes p k c button ctx_auto innerLoading hasTwoCNChar);
    Keys (literal [(prefixCls c ++ "-disabled",
                    flag (mergedDisabled p ctx_disabled))]) ].

(** [children || children === 0 ? spaceChildren(children, needInserted &&
    mergedInsertSpace) : null], with [None] for [null]. *)
Definition kids (p : ButtonProps) (needInserted mergedInsertSpace : bool)
  : option value :=
  if truthy (children p) || is_zero (children p)
  then Some (spaceChildren (children p) (needInserted && mergedInsertSpace))
  else None.

End Helpers.

End Appearance.

(* ================================================================== *)
(** ** Comparing instances of the loading automaton *)

Module Observe.
Import Loading.

(** Two instances that differ at most in how the clock value is written. *)
Definition same_but_clock (s1 s2 : Instance) : Prop :=
  (now s1 == now s2)%Q
  /\ next_handle s1 = next_handle s2
  /\ pending s1 = pending s2
  /\ mounted s1 = mounted s2
  /\ innerLoading s1 = innerLoading s2
  /\ deps s1 = deps s2
  /\ delayTimer s1 = delayTimer s2
  /\ fired s1 = fired s2.

End Observe.

(* ================================================================== *)
(** ** Style objects and object spread *)

Module Style.

(** A [React.CSSProperties] object: its own keys in insertion order, with
    the values kept as text. *)
Definition CSSProperties : Type := list (string * string).

Fixpoint set (k v : string) (o : CSSProperties) : CSSProperties :=
  match o with
  | [] => [(k, v)]
  | (k', v') :: o' =>
      if String.eqb k' k then (k', v) :: o'
      else (k', v') :: set k v o'
  end.

Fixpoint lookup (k : string) (o : CSSProperties) : option string :=
  match o with
  | [] => None
  | (k', v) :: o' => if String.eqb k' k then Some v else lookup k o'
  end.

(** The value the last of the entries under [k] holds, starting from
    [found]. *)
Definition last_binding (k : string) (found : option string)
  (entries : list (string * string)) : option string :=
  fold_left (fun found e => if String.eqb (fst e) k then Some (snd e)
                            else found) entries found.

(** [{ ...a, ...b }]; spreading [undefined] adds nothing. *)
Definition spread (a b : option CSSProperties) : CSSProperties :=
  let copy (src : option CSSProperties) (dst : CSSProperties) :=
    match src with
    | Some o => fold_left (fun acc e => set (fst e) (snd e) acc) o dst
    | None => dst
    end in
  copy b (copy a []).

(** [{ ...contextStyle, ...customStyle }] with [style: customStyle = {}]. *)
Definition fullStyle (contextStyle customStyle : option CSSProperties)
  : CSSProperties :=
  spread contextStyle
    (Some (match customStyle with Some o => o | None => [] end)).

(** [{ ...(styles?.icon || {}), ...(contextStyles.icon || {}) }] *)
Definition iconStyle (styles_icon contextStyles_icon : option CSSProperties)
  : CSSProperties :=
  spread (Some (match styles_icon with Some o => o | None => [] end))
         (Some (match contextStyles_icon with Some o => o | None => [] end)).

(** [classNames(customClassNames?.icon, contextClassNames.icon)] *)
Definition iconClasses (custom_icon context_icon : option string)
  : list string :=
  ClassNames.tokens [ClassNames.optional custom_icon;
                     ClassNames.optional context_icon].

End Style.

(* ================================================================== *)
(** * Properties *)

Import JS.
Import Button.

(** ** Color and variant resolution *)

Lemma opt_truthy_some (o : option string) :
  opt_truthy o = true -> exists s, o = Some s /\ s <> "".
Proof.
  destruct o as [s|]; simpl; [|discriminate].
  destruct s; [discriminate|]. intros _. eexists; split; [reflexivity|].
  discriminate.
Qed.

Lemma ButtonTypeMap_total (t : ButtonType) :
  exists c v, ButtonTypeMap t = Some (Some c, Some v) /\ c <> "" /\ v <> "".
Proof.
  destruct t; simpl; do 2 eexists; (split; [reflexivity|]);
    split; discriminate.
Qed.

Lemma guard_local_resolve p button :
  guard LocalPair p button = true ->
  mergedColorVariant p button = outcome LocalPair p button.
Proof.
  unfold guard, mergedColorVariant. intros ->. reflexivity.
Qed.

Lemma guard_legacy_resolve p button :
  guard LocalPair p button = false ->
  guard LegacySugar p button = true ->
  mergedColorVariant p button = outcome LegacySugar p button.
Proof.
  unfold guard, mergedColorVariant. intros -> ->. reflexivity.
Qed.

Lemma guard_context_resolve p button :
  guard LocalPair p button = false ->
  guard LegacySugar p button = false ->
  guard ContextPair p button = true ->
  mergedColorVariant p button = outcome ContextPair p button.
Proof.
  unfold guard, mergedColorVariant. intros -> -> ->. reflexivity.
Qed.

Lemma guard_default_resolve p button :
  guard LocalPair p button = false ->
  guard LegacySugar p button = false ->
  guard ContextPair p button = false ->
  mergedColorVariant p button = outcome DefaultPair p button.
Proof.
  unfold guard, mergedColorVariant. intros -> -> ->. reflexivity.
Qed.

(** Resolution follows the rule that fires. *)
Lemma fires_resolve r p button :
  fires r p button -> mergedColorVariant p button = outcome r p button.
Proof.
  intros [Hg He]. destruct r.
  - now apply guard_local_resolve.
  - apply guard_legacy_resolve; [apply He; simpl; auto | exact Hg].
  - apply guard_context_resolve;
      [apply He; simpl; auto | apply He; simpl; auto | exact Hg].
  - apply guard_default_resolve; apply He; simpl; auto.
Qed.

Lemma selected_fires p button : fires (selected p button) p button.
Proof.
  unfold selected, fires.
  destruct (guard LocalPair p button) eqn:G1.
  { split; [exact G1 | intros r' []]. }
  destruct (guard LegacySugar p button) eqn:G2.
  { split; [exact G2 | intros r' [<-|[]]; exact G1]. }
  destruct (guard ContextPair p button) eqn:G3.
  { split; [exact G3 | intros r' [<-|[<-|[]]]; assumption]. }
  split; [reflexivity | intros r' [<-|[<-|[<-|[]]]]; assumption].
Qed.

Lemma fires_selected r p button :
  fires r p button -> r = selected p button.
Proof.
  intros [G E]. unfold selected.
  destruct r; simpl in E.
  - now rewrite G.
  - rewrite (E LocalPair) by auto. now rewrite G.
  - rewrite (E LocalPair), (E LegacySugar) by auto. now rewrite G.
  - now rewrite (E LocalPair), (E LegacySugar), (E ContextPair) by auto.
Qed.

Lemma fires_unique r1 r2 p button :
  fires r1 p button -> fires r2 p button -> r1 = r2.
Proof.
  intros F1 F2.
  rewrite (fires_selected _ _ _ F1). symmetry. now apply fires_selected.
Qed.

Lemma outcome_defined r p button :
  guard r p button = true ->
  exists c v, outcome r p button = (Some c, Some v) /\ c <> "" /\ v <> "".
Proof.
  destruct r; simpl; intros G.
  - apply andb_true_iff in G as [Hc Hv].
    apply opt_truthy_some in Hc as (c & -> & Nc).
    apply opt_truthy_some in Hv as (v & -> & Nv). eauto.
  - destruct (ButtonTypeMap_total (mergedType p)) as (c & v & -> & Nc & Nv).
    destruct (danger_of p); simpl; do 2 eexists;
      (split; [reflexivity|]); split; auto; discriminate.
  - destruct button as [b|]; simpl in G; [|discriminate].
    apply andb_true_iff in G as [Hc Hv].
    apply opt_truthy_some in Hc as (c & -> & Nc).
    apply opt_truthy_some in Hv as (v & -> & Nv). eauto.
  - do 2 eexists; (split; [reflexivity|]); split; discriminate.
Qed.

(** C1: when [color] and [variant] are both truthy, the resolver returns
    that pair as it is, whatever [type], [danger] and the context hold. *)
Theorem local_pair_verbatim (p : ButtonProps) (button : option ButtonConfig) :
  opt_truthy (color p) = true ->
  opt_truthy (variant p) = true ->
  mergedColorVariant p button = (color p, variant p)
  /\ mergedColor p button = color p
  /\ mergedVariant p button = variant p.
Proof.
  intros Hc Hv.
  assert (E : mergedColorVariant p button = (color p, variant p)).
  { apply guard_local_resolve. simpl. now rewrite Hc, Hv. }
  unfold mergedColor, mergedVariant. rewrite E. auto.
Qed.

Lemma local_pair_verbatim_witness :
  let p := {| loading := LUndefined; color := Some "purple";
              variant := Some "filled"; type := Some type_primary;
              danger := Some true; shape := None; disabled := None;
              children := Undefined; icon := Undefined; href := Missing;
              onClick := None; autoInsertSpace := None |} in
  let button := Some {| ctx_shape := None; ctx_color := Some "primary";
                        ctx_variant := Some "solid" |} in
  mergedColorVariant p button = (Some "purple", Some "filled").
Proof.
  intros p button.
  exact (proj1 (local_pair_verbatim p button eq_refl eq_refl)).
Defined.

(** C2: each legacy [type] alone resolves to its pair of the table; when
    [danger] is set and the legacy branch is taken, the color is ['danger']
    and the variant is the one the table gives for [type || 'default'];
    [danger] with [variant = 'text'] and neither [color] nor [type]
    resolves to [('danger', 'outlined')]. *)
Theorem legacy_type_mapping :
  (mergedColorVariant (only_type type_default) None
     = (Some "default", Some "outlined")
   /\ mergedColorVariant (only_type type_primary) None
     = (Some "primary", Some "solid")
   /\ mergedColorVariant (only_type type_dashed) None
     = (Some "default", Some "dashed")
   /\ mergedColorVariant (only_type type_link) None
     = (Some "link", Some "link")
   /\ mergedColorVariant (only_type type_text) None
     = (Some "default", Some "text"))
  /\ (forall p button t,
        guard LocalPair p button = false ->
        type p = Some t ->
        danger_of p = false ->
        Some (mergedColorVariant p button) = ButtonTypeMap t)
  /\ (forall p button,
        guard LocalPair p button = false ->
        danger_of p = true ->
        exists c v,
          ButtonTypeMap (mergedType p) = Some (c, Some v)
          /\ mergedColorVariant p button = (Some "danger", Some v))
  /\ (forall button shape disabled children icon href onClick auto loading,
        mergedColorVariant
          {| loading := loading; color := None; variant := Some "text";
             type := None; danger := Some true; shape := shape;
             disabled := disabled; children := children; icon := icon;
             href := href; onClick := onClick; autoInsertSpace := auto |}
          button
        = (Some "danger", Some "outlined")).
Proof.
  split; [repeat split|].
  split; [|split].
  - intros p button t G1 Ht Hd.
    rewrite (guard_legacy_resolve p button G1)
      by (simpl; rewrite Ht; reflexivity).
    simpl. unfold mergedType. rewrite Ht, Hd.
    destruct t; reflexivity.
  - intros p button G1 Hd.
    rewrite (guard_legacy_resolve p button G1)
      by (simpl; rewrite Hd; apply orb_true_r).
    simpl. rewrite Hd.
    destruct (mergedType p); simpl; do 2 eexists; split; reflexivity.
  - reflexivity.
Qed.

Lemma legacy_type_mapping_witness :
  let p := {| loading := LBool true; color := Some "purple"; variant := None;
              type := Some type_dashed; danger := Some true; shape := None;
              disabled := None; children := Undefined; icon := Undefined;
              href := Missing; onClick := None; autoInsertSpace := None |} in
  let button := Some {| ctx_shape := None; ctx_color := Some "primary";
                        ctx_variant := Some "solid" |} in
  (exists c v,
      ButtonTypeMap (mergedType p) = Some (c, Some v)
      /\ mergedColorVariant p button = (Some "danger", Some v))
  /\ Some (mergedColorVariant (only_type type_link) button)
      = ButtonTypeMap type_link.
Proof.
  intros p button.
  destruct legacy_type_mapping as (_ & Htype & Hdanger & _).
  split.
  - exact (Hdanger p button eq_refl eq_refl).
  - exact (Htype (only_type type_link) button type_link
             eq_refl eq_refl eq_refl).
Defined.

(** C3: both components of the resolved pair are defined, and exactly one
    of the four rules fires, which is the one that gives the result. *)
Theorem resolution_defined_by_one_rule
  (p : ButtonProps) (button : option ButtonConfig) :
  (exists c v, mergedColorVariant p button = (Some c, Some v)
               /\ c <> "" /\ v <> "")
  /\ (exists r, fires r p button
                /\ mergedColorVariant p button = outcome r p button
                /\ forall r', fires r' p button -> r' = r).
Proof.
  pose proof (selected_fires p button) as F.
  split.
  - rewrite (fires_resolve _ _ _ F). apply outcome_defined, F.
  - exists (selected p button). split; [exact F|]. split.
    + now apply fires_resolve.
    + intros r' F'. eapply fires_unique; eassumption.
Qed.

Lemma resolution_defined_by_one_rule_witness :
  let p := {| loading := LUndefined; color := Some "purple"; variant := None;
              type := None; danger := None; shape := None; disabled := None;
              children := Undefined; icon := Undefined; href := Missing;
              onClick := None; autoInsertSpace := None |} in
  let button := Some {| ctx_shape := None; ctx_color := Some "primary";
                        ctx_variant := None |} in
  exists r, fires r p button
            /\ mergedColorVariant p button = outcome r p button
            /\ forall r', fires r' p button -> r' = r.
Proof.
  intros p button.
  exact (proj2 (resolution_defined_by_one_rule p button)).
Defined.

(** ** Loading *)

Import Loading.

Lemma getLoadingConfig_object (d icon : value) :
  getLoadingConfig (LObject d icon)
  = match d with
    | Num NaN => {| loading := true; delay := Finite 0 |}
    | Num n => {| loading := le0 n; delay := n |}
    | _ => {| loading := true; delay := Finite 0 |}
    end.
Proof. destruct d as [| | |[]| | |]; reflexivity. Qed.

Lemma getLoadingConfig_not_NaN (l : LoadingProp) :
  delay (getLoadingConfig l) <> NaN.
Proof.
  destruct l as [| | |d i]; try discriminate.
  rewrite getLoadingConfig_object.
  destruct d as [| | |[]| | |]; discriminate.
Qed.

Lemma le0_gt0 (n : number) : n <> NaN -> gt0 n = negb (le0 n).
Proof. destruct n; simpl; congruence. Qed.

Lemma getLoadingConfig_loading (l : LoadingProp) :
  gt0 (delay (getLoadingConfig l)) = true ->
  loading (getLoadingConfig l) = false.
Proof.
  destruct l as [| | |d i]; try discriminate.
  rewrite getLoadingConfig_object.
  destruct d as [| | |[]| | |]; simpl; try discriminate; auto.
  destruct (Qle_bool q 0); simpl; congruence.
Qed.

Lemma dequeue_single (h : nat) (d : option Q) :
  dequeue h [{| handle := h; due := d |}] = [].
Proof. unfold dequeue; simpl. now rewrite Nat.eqb_refl. Qed.

Lemma cleanupTimer_inv (s : Instance) :
  timer_inv s ->
  pending (cleanupTimer s) = [] /\ delayTimer (cleanupTimer s) = None
  /\ mounted (cleanupTimer s) = mounted s
  /\ innerLoading (cleanupTimer s) = innerLoading s
  /\ next_handle (cleanupTimer s) = next_handle s
  /\ fired (cleanupTimer s) = fired s
  /\ now (cleanupTimer s) = now s.
Proof.
  unfold timer_inv, cleanupTimer.
  destruct (delayTimer s) as [h|] eqn:E.
  - intros ((d & Hp) & _). simpl. rewrite Hp, dequeue_single. auto 10.
  - intros Hp. rewrite E. auto 10.
Qed.

Lemma layoutEffect_inv (c : LoadingConfigType) (s : Instance) :
  pending s = [] -> mounted s = true -> deps s = c ->
  timer_inv (layoutEffect c s) /\ settled_inv (layoutEffect c s).
Proof.
  intros Hp Hm Hd. unfold layoutEffect, timer_inv, settled_inv.
  destruct (gt0 (delay c)) eqn:G; simpl.
  - rewrite Hp, Hm, Hd, G. simpl. split; [|congruence].
    split; [eexists; reflexivity|]. repeat split. lia.
  - unfold setLoading; simpl. rewrite Hm; simpl. rewrite Hd. auto.
Qed.

Lemma mount_inv (t0 : Q) (l : LoadingProp) :
  timer_inv (mount t0 l) /\ settled_inv (mount t0 l).
Proof. unfold mount. now apply layoutEffect_inv. Qed.

Lemma update_inv (l : LoadingProp) (s : Instance) :
  timer_inv s -> settled_inv s ->
  timer_inv (update l s) /\ settled_inv (update l s).
Proof.
  intros Ht Hs. unfold update.
  destruct (mounted s) eqn:Hm; [|now split].
  destruct (same_deps _ _); [now split|].
  destruct (cleanupTimer_inv s Ht) as (Hp & _ & Hm' & _).
  apply layoutEffect_inv; simpl; congruence.
Qed.

Lemma elapse_idle (dt : Q) (s : Instance) :
  pending s = [] -> elapse dt s = with_clock (now s + dt) s.
Proof. unfold elapse; simpl. now intros ->. Qed.

Lemma elapse_inv (dt : Q) (s : Instance) :
  timer_inv s -> settled_inv s ->
  timer_inv (elapse dt s) /\ settled_inv (elapse dt s).
Proof.
  intros Ht Hs. unfold timer_inv in Ht.
  destruct (delayTimer s) as [h|] eqn:E.
  - destruct Ht as ((d & Hp) & Hm & Hg & Hh).
    unfold elapse; simpl. rewrite Hp; simpl.
    destruct (is_due _ _); simpl.
    + unfold timer_inv, settled_inv, fire, timer_callback, setLoading;
        simpl. rewrite E, Nat.eqb_refl; simpl. rewrite Hm; simpl.
        rewrite Hp, dequeue_single. split; [reflexivity|congruence].
    + unfold timer_inv, settled_inv; simpl. rewrite E, Hp.
      split; [|congruence]. split; [eexists; reflexivity|auto].
  - rewrite (elapse_idle _ _ Ht).
    unfold timer_inv, settled_inv; simpl. now rewrite E.
Qed.

Lemma unmount_inv (s : Instance) :
  timer_inv s -> timer_inv (unmount s) /\ settled_inv (unmount s).
Proof.
  intros Ht. destruct (cleanupTimer_inv s Ht) as (Hp & Hd & _).
  unfold unmount, timer_inv, settled_inv; simpl.
  rewrite Hd. split; [exact Hp | discriminate].
Qed.

Lemma step_inv (e : Event) (s : Instance) :
  timer_inv s -> settled_inv s ->
  timer_inv (step s e) /\ settled_inv (step s e).
Proof.
  intros Ht Hs. destruct e; simpl.
  - now apply update_inv.
  - now apply elapse_inv.
  - now apply unmount_inv.
Qed.

Lemma reachable_inv (s : Instance) :
  reachable s -> timer_inv s /\ settled_inv s.
Proof.
  induction 1 as [t0 l | s e _ [Ht Hs]].
  - apply mount_inv.
  - now apply step_inv.
Qed.

Lemma reachable_run (s : Instance) (es : list Event) :
  reachable s -> reachable (run s es).
Proof.
  revert s. induction es as [|e es IH]; intros s R; simpl; [exact R|].
  apply IH. now constructor.
Qed.

Lemma Qle_bool_false (a b : Q) : (b < a)%Q -> Qle_bool a b = false.
Proof.
  intros H. destruct (Qle_bool a b) eqn:E; [|reflexivity].
  apply Qle_bool_iff in E. lra.
Qed.

Lemma Qle_bool_true (a b : Q) : (a <= b)%Q -> Qle_bool a b = true.
Proof. intros H. now apply Qle_bool_iff. Qed.

Lemma Qle_bool_shift (a b c e : Q) :
  (c == a + e)%Q -> Qle_bool (a + b) c = Qle_bool b e.
Proof.
  intros H. destruct (Qle_bool b e) eqn:E.
  - apply Qle_bool_iff in E. apply Qle_bool_true. lra.
  - apply Qle_bool_false.
    destruct (Qlt_le_dec e b) as [L|L]; [lra|].
    apply Qle_bool_iff in L. congruence.
Qed.

Lemma Qle_bool_compat (a b c : Q) :
  (b == c)%Q -> Qle_bool a b = Qle_bool a c.
Proof.
  intros H. destruct (Qle_bool a c) eqn:E.
  - apply Qle_bool_iff in E. apply Qle_bool_true. lra.
  - apply Qle_bool_false.
    destruct (Qlt_le_dec c a) as [L|L]; [lra|].
    apply Qle_bool_iff in L. congruence.
Qed.

Lemma same_number_gt0 (a b : number) :
  same_number a b = true -> gt0 a = gt0 b.
Proof.
  destruct a as [| |p|], b as [| |q|]; simpl; try discriminate; auto.
  intros H. apply Qeq_bool_iff in H. f_equal.
  apply eq_true_iff_eq. rewrite !Qle_bool_iff. now rewrite H.
Qed.

(** *** A delayed specification while its timer is pending *)

Lemma timeout_whole (n : Z) :
  (1 <= n <= TIMEOUT_MAX)%Z -> timeout (Finite (inject_Z n)) = inject_Z n.
Proof.
  intros [H1 H2]. unfold timeout. rewrite Qfloor_Z.
  apply Z.leb_le in H1, H2. now rewrite H1, H2.
Qed.

Lemma whole_positive (n : Z) : (1 <= n)%Z -> (0 < inject_Z n)%Q.
Proof. intros H. unfold Qlt; simpl. lia. Qed.

Lemma elapse_armed (t0 d e dt : Q) (h : nat) (b : bool) (f : list nat)
  (s : Instance) :
  armed t0 d e h b f s ->
  if Qle_bool d (e + dt) then gone_off h f (elapse dt s)
  else armed t0 d (e + dt) h b f (elapse dt s).
Proof.
  intros (Hn & Hp & Ht & Hm & Hl & Hf).
  unfold elapse; simpl. rewrite Hp; simpl. unfold is_due; simpl.
  rewrite (Qle_bool_shift t0 d (now s + dt) (e + dt)) by (rewrite Hn; ring).
  destruct (Qle_bool d (e + dt)); simpl.
  - unfold gone_off, fire, timer_callback, setLoading; simpl.
    rewrite Ht, Nat.eqb_refl; simpl. rewrite Hm; simpl.
    rewrite Hp, Hf, dequeue_single. auto.
  - unfold armed; simpl. repeat split; auto. rewrite Hn. ring.
Qed.

Lemma run_gone_off (dts : list Q) (h : nat) (f : list nat) (s : Instance) :
  gone_off h f s -> gone_off h f (run s (map Elapse dts)).
Proof.
  revert s. induction dts as [|dt dts IH]; intros s A; simpl; [exact A|].
  apply IH. destruct A as (Hp & Hl & Hf). rewrite (elapse_idle _ _ Hp).
  unfold gone_off; simpl. auto.
Qed.

Lemma total_nonneg (dts : list Q) :
  Forall (fun dt => 0 <= dt)%Q dts -> (0 <= total dts)%Q.
Proof.
  induction 1 as [|dt dts Hdt _ IH]; simpl; [lra|]. lra.
Qed.

(** While the timer is pending the flag keeps its value; from the instant
    the delay has elapsed it is on, and the callback has run once. *)
Lemma run_armed (t0 d : Q) (h : nat) (b : bool) (f : list nat)
  (dts : list Q) :
  Forall (fun dt => 0 <= dt)%Q dts ->
  forall e s,
    armed t0 d e h b f s -> (e < d)%Q ->
    let s' := run s (map Elapse dts) in
    innerLoading s' = b || Qle_bool d (e + total dts)
    /\ fired s'
       = (f ++ if Qle_bool d (e + total dts) then [h] else [])%list
    /\ List.length (pending s')
       = (if Qle_bool d (e + total dts) then 0 else 1)%nat.
Proof.
  induction 1 as [|dt dts Hdt Hdts IH]; intros e s W He; simpl.
  - rewrite (Qle_bool_false d (e + 0)) by lra.
    destruct W as (_ & -> & _ & _ & -> & ->).
    rewrite orb_false_r, app_nil_r. auto.
  - pose proof (elapse_armed t0 d e dt h b f s W) as Hstep.
    pose proof (total_nonneg dts Hdts) as Hnn.
    destruct (Qle_bool d (e + dt)) eqn:E.
    + apply Qle_bool_iff in E.
      rewrite (Qle_bool_true d (e + (dt + total dts))) by lra.
      destruct (run_gone_off dts h f _ Hstep) as (-> & -> & ->).
      rewrite orb_true_r. auto.
    + assert (e + dt < d)%Q.
      { destruct (Qlt_le_dec (e + dt) d) as [L|L]; [exact L|].
        apply Qle_bool_iff in L. congruence. }
      rewrite (Qle_bool_compat d (e + (dt + total dts))
                 (e + dt + total dts)) by ring.
      now apply IH.
Qed.

Lemma mount_armed (t0 : Q) (n : Z) (icon : value) :
  (1 <= n <= TIMEOUT_MAX)%Z ->
  armed t0 (inject_Z n) 0 0 false []
    (mount t0 (LObject (Num (Finite (inject_Z n))) icon)).
Proof.
  intros Hn. pose proof (whole_positive n (proj1 Hn)) as Hpos.
  unfold mount, layoutEffect, setTimeout, deadline.
  rewrite getLoadingConfig_object. cbn [delay loading le0 gt0].
  rewrite (Qle_bool_false (inject_Z n) 0 Hpos), (timeout_whole n Hn).
  unfold armed; simpl. repeat split; auto. ring.
Qed.

(** *** Handles: what one step does to the queue and to the history *)

Lemma pending_handles_bound (s : Instance) :
  timer_inv s ->
  forall h, In h (map handle (pending s)) -> (h < next_handle s)%nat.
Proof.
  unfold timer_inv. destruct (delayTimer s) as [h'|].
  - intros ((d & ->) & _ & _ & Hlt) h [<-|[]]. exact Hlt.
  - intros -> h [].
Qed.

Lemma layoutEffect_shape (c : LoadingConfigType) (s : Instance) :
  pending s = [] ->
  (next_handle s <= next_handle (layoutEffect c s))%nat
  /\ (forall h, In h (map handle (pending (layoutEffect c s))) ->
                h = next_handle s)
  /\ fired (layoutEffect c s) = fired s.
Proof.
  intros Hp. unfold layoutEffect.
  destruct (gt0 (delay c)); simpl.
  - rewrite Hp; simpl. split; [lia|]. split; [|reflexivity].
    intros h [<-|[]]. reflexivity.
  - unfold setLoading. destruct (mounted _); simpl; rewrite Hp;
      (split; [lia|]); (split; [intros h []|reflexivity]).
Qed.

Lemma step_shape (s : Instance) (e : Event) :
  timer_inv s ->
  (next_handle s <= next_handle (step s e))%nat
  /\ (forall h, In h (map handle (pending (step s e))) ->
                In h (map handle (pending s)) \/ h = next_handle s)
  /\ (forall h, In h (fired (step s e)) ->
                In h (fired s)
                \/ (In h (map handle (pending s))
                    /\ ~ In h (map handle (pending (step s e))))).
Proof.
  intros Ht. destruct e as [l|dt|]; simpl.
  - unfold update. destruct (mounted s); [|auto].
    destruct (same_deps _ _); [auto|].
    destruct (cleanupTimer_inv s Ht) as (Hp & _ & _ & _ & Hn & Hf & _).
    destruct (layoutEffect_shape (getLoadingConfig l)
                (with_deps (getLoadingConfig l) (cleanupTimer s)) Hp)
      as (Hle & Hin & Hfired).
    simpl in Hle, Hin. rewrite Hn in Hle, Hin.
    rewrite Hfired. simpl. rewrite Hf. auto.
  - unfold timer_inv in Ht. destruct (delayTimer s) as [h'|] eqn:E.
    + destruct Ht as ((d & Hp) & Hm & _).
      unfold elapse; simpl. rewrite Hp; simpl.
      destruct (is_due _ _); simpl; [|rewrite Hp; simpl; auto].
      unfold fire, timer_callback, setLoading; simpl.
      rewrite E, Nat.eqb_refl; simpl. rewrite Hm; simpl.
      rewrite Hp, dequeue_single; simpl.
      split; [lia|]. split; [intros h []|].
      intros h Hin. apply in_app_or in Hin as [Hin|[<-|[]]]; auto.
    + rewrite (elapse_idle _ _ Ht); simpl. auto.
  - destruct (cleanupTimer_inv s Ht) as (Hp & _ & _ & _ & Hn & Hf & _).
    unfold unmount; simpl. rewrite Hp, Hn, Hf; simpl.
    split; [lia|]. split; [intros h []|auto].
Qed.

Lemma retired_step (h : nat) (s : Instance) (e : Event) :
  timer_inv s -> retired h s ->
  retired h (step s e) /\ (In h (fired (step s e)) -> In h (fired s)).
Proof.
  intros Ht [Hlt Hnot].
  destruct (step_shape s e Ht) as (Hle & Hpend & Hfired).
  split; [split|].
  - lia.
  - intros Hin. destruct (Hpend h Hin) as [Hin'| ->]; [auto|lia].
  - intros Hin. destruct (Hfired h Hin) as [Hin'|[Hin' _]]; tauto.
Qed.

Lemma retired_run (h : nat) (es : list Event) (s : Instance) :
  reachable s -> retired h s ->
  In h (fired (run s es)) -> In h (fired s).
Proof.
  revert s. induction es as [|e es IH]; intros s R Hr; simpl; [auto|].
  destruct (retired_step h s e (proj1 (reachable_inv s R)) Hr) as [Hr' Hf].
  intros Hin. apply Hf. apply IH; auto. now constructor.
Qed.

Lemma history_step (s : Instance) (e : Event) :
  timer_inv s -> history_inv s -> history_inv (step s e).
Proof.
  intros Ht Hh h Hin.
  destruct (step_shape s e Ht) as (Hle & Hpend & Hfired).
  destruct (Hfired h Hin) as [Hold|[Hp Hgone]].
  - now apply (retired_step h s e Ht (Hh h Hold)).
  - split; [|exact Hgone].
    pose proof (pending_handles_bound s Ht h Hp). lia.
Qed.

Lemma mount_history (t0 : Q) (l : LoadingProp) : history_inv (mount t0 l).
Proof.
  intros h. unfold mount.
  match goal with
  | |- context [layoutEffect ?c ?s] =>
      destruct (layoutEffect_shape c s eq_refl) as (_ & _ & ->)
  end.
  intros [].
Qed.

Lemma reachable_history (s : Instance) : reachable s -> history_inv s.
Proof.
  induction 1 as [t0 l | s e R IH].
  - apply mount_history.
  - apply history_step; [apply reachable_inv|]; assumption.
Qed.

(** After teardown nothing is pending and nothing happens any more. *)
Lemma torn_down_step (s : Instance) (e : Event) :
  mounted s = false -> pending s = [] -> delayTimer s = None ->
  mounted (step s e) = false /\ pending (step s e) = []
  /\ delayTimer (step s e) = None
  /\ fired (step s e) = fired s
  /\ innerLoading (step s e) = innerLoading s.
Proof.
  intros Hm Hp Hd. destruct e as [l|dt|]; simpl.
  - unfold update. rewrite Hm. auto.
  - rewrite (elapse_idle _ _ Hp); simpl. auto.
  - unfold unmount, cleanupTimer. rewrite Hd; simpl. auto.
Qed.

Lemma torn_down_run (es : list Event) (s : Instance) :
  mounted s = false -> pending s = [] -> delayTimer s = None ->
  fired (run s es) = fired s /\ innerLoading (run s es) = innerLoading s
  /\ pending (run s es) = [].
Proof.
  revert s. induction es as [|e es IH]; intros s Hm Hp Hd; simpl; [auto|].
  destruct (torn_down_step s e Hm Hp Hd) as (Hm' & Hp' & Hd' & Hf & Hl).
  destruct (IH _ Hm' Hp' Hd') as (-> & -> & ->). auto.
Qed.

Lemma update_changed (l : LoadingProp) (s : Instance) :
  timer_inv s -> mounted s = true ->
  same_deps (deps s) (getLoadingConfig l) = false ->
  let c := getLoadingConfig l in
  let s1 := with_deps c (cleanupTimer s) in
  update l s = layoutEffect c s1
  /\ pending s1 = [] /\ mounted s1 = true
  /\ innerLoading s1 = innerLoading s /\ next_handle s1 = next_handle s
  /\ fired s1 = fired s /\ now s1 = now s.
Proof.
  intros Ht Hm Hd. unfold update. rewrite Hm, Hd. simpl.
  destruct (cleanupTimer_inv s Ht) as (Hp & _ & Hm' & Hl & Hn & Hf & Hc).
  rewrite Hm' in *. auto 10.
Qed.

Lemma update_fired (l : LoadingProp) (s : Instance) :
  timer_inv s -> fired (update l s) = fired s.
Proof.
  intros Ht. unfold update.
  destruct (mounted s); [|reflexivity].
  destruct (same_deps _ _); [reflexivity|].
  destruct (cleanupTimer_inv s Ht) as (Hp & _ & _ & _ & _ & Hf & _).
  match goal with
  | |- context [layoutEffect ?c ?s1] =>
      destruct (layoutEffect_shape c s1 Hp) as (_ & _ & ->)
  end.
  simpl. exact Hf.
Qed.

(** C4: normalisation of the [loading] input.  [false] (or nothing) gives
    an inactive specification, [true] an active one; an object whose
    [delay] is not a number, is NaN or is missing is read with delay 0 and is
    active; an object with [delay <= 0] is active; an object with
    [delay > 0] is inactive and keeps that delay.  Every input falls in one
    of these classes.  The flag of the instance starts as the normalised
    [loading], and an update to a specification without positive delay
    leaves the flag equal to it. *)
Theorem loading_normalisation :
  getLoadingConfig (LBool false) = {| loading := false; delay := Finite 0 |}
  /\ getLoadingConfig LUndefined = {| loading := false; delay := Finite 0 |}
  /\ getLoadingConfig LNull = {| loading := false; delay := Finite 0 |}
  /\ getLoadingConfig (LBool true) = {| loading := true; delay := Finite 0 |}
  /\ (forall d icon,
        is_number d = false \/ d = Num NaN \/ d = Undefined ->
        getLoadingConfig (LObject d icon)
        = {| loading := true; delay := Finite 0 |})
  /\ (forall n icon,
        le0 n = true ->
        getLoadingConfig (LObject (Num n) icon)
        = {| loading := true; delay := n |})
  /\ (forall n icon,
        gt0 n = true ->
        getLoadingConfig (LObject (Num n) icon)
        = {| loading := false; delay := n |})
  /\ (forall l,
        let c := getLoadingConfig l in
        delay c <> NaN
        /\ ((loading c = true /\ le0 (delay c) = true)
            \/ (loading c = false /\ gt0 (delay c) = true)
            \/ (loading c = false /\ loading_truthy l = false
                /\ delay c = Finite 0)))
  /\ (forall t0 l,
        innerLoading (mount t0 l) = loading (getLoadingConfig l))
  /\ (forall s l,
        reachable s -> mounted s = true ->
        gt0 (delay (getLoadingConfig l)) = false ->
        innerLoading (update l s) = loading (getLoadingConfig l)
        /\ pending (update l s) = []).
Proof.
  do 4 (split; [reflexivity|]).
  split; [|split; [|split; [|split; [|split]]]].
  - intros d icon H. rewrite getLoadingConfig_object.
    destruct H as [H|[->| ->]]; try reflexivity.
    destruct d as [| | |[]| | |]; try reflexivity; discriminate.
  - intros n icon H. rewrite getLoadingConfig_object.
    destruct n; simpl in *; try discriminate; now rewrite ?H.
  - intros n icon H. rewrite getLoadingConfig_object.
    destruct n; simpl in *; try discriminate; try reflexivity.
    now destruct (Qle_bool q 0).
  - intros l c. split; [apply getLoadingConfig_not_NaN|]. subst c.
    destruct l as [| |[]|d icon]; try (simpl; now auto 6).
    rewrite getLoadingConfig_object.
    destruct d as [| | |[| |q|]| | |]; simpl; auto.
    destruct (Qle_bool q 0); simpl; auto.
  - intros t0 l. unfold mount, layoutEffect.
    destruct (gt0 _); simpl; reflexivity.
  - intros s l R Hm Hg.
    destruct (reachable_inv s R) as [Ht Hs].
    unfold update. rewrite Hm.
    destruct (same_deps _ _) eqn:E.
    + apply andb_true_iff in E as [En El].
      apply same_number_gt0 in En. apply eqb_prop in El.
      split.
      * rewrite <- El. apply Hs; congruence.
      * unfold timer_inv in Ht. destruct (delayTimer s); [|exact Ht].
        destruct Ht as (_ & _ & Hg' & _). congruence.
    + destruct (cleanupTimer_inv s Ht) as (Hp & _ & Hm' & _).
      unfold layoutEffect; simpl. rewrite Hg.
      unfold setLoading; simpl. rewrite Hm', Hm. split; [reflexivity|].
      exact Hp.
Qed.

Lemma loading_normalisation_witness :
  getLoadingConfig (LObject (Str "soon") Undefined)
  = {| loading := true; delay := Finite 0 |}
  /\ getLoadingConfig (LObject (Num (Finite (-5))) Undefined)
     = {| loading := true; delay := Finite (-5) |}
  /\ getLoadingConfig (LObject (Num (Finite 300)) Undefined)
     = {| loading := false; delay := Finite 300 |}
  /\ innerLoading (update (LBool true) (mount 0 (LBool false))) = true.
Proof.
  destruct loading_normalisation
    as (_ & _ & _ & _ & Hbad & Hle & Hgt & _ & _ & Hupd).
  split; [apply Hbad; left; reflexivity|].
  split; [apply Hle; reflexivity|].
  split; [apply Hgt; reflexivity|].
  exact (proj1 (Hupd (mount 0 (LBool false)) (LBool true)
                  (reach_mount 0 (LBool false)) eq_refl eq_refl)).
Defined.

Lemma update_armed (s : Instance) (l : LoadingProp) (n : Z) :
  reachable s -> mounted s = true ->
  same_deps (deps s) (getLoadingConfig l) = false ->
  delay (getLoadingConfig l) = Finite (inject_Z n) ->
  (1 <= n <= TIMEOUT_MAX)%Z ->
  armed (now s) (inject_Z n) 0 (next_handle s) (innerLoading s) (fired s)
    (update l s).
Proof.
  intros R Hm Hd Hdelay Hn.
  destruct (reachable_inv s R) as [Ht _].
  destruct (update_changed l s Ht Hm Hd)
    as (E & Hp & Hm1 & Hl & Hh & Hf & Hc).
  simpl in Hp, Hm1, Hl, Hh, Hf, Hc.
  pose proof (whole_positive n (proj1 Hn)) as Hpos.
  rewrite E. unfold layoutEffect, setTimeout, deadline.
  rewrite Hdelay. cbn [gt0].
  rewrite (Qle_bool_false (inject_Z n) 0 Hpos), (timeout_whole n Hn).
  unfold armed; simpl. rewrite Hp, Hh, Hc, Hm1, Hl, Hf.
  repeat split; auto. ring.
Qed.

(** C5, as the code has it.  The delays meant are whole numbers of
    milliseconds from 1 to [TIMEOUT_MAX], which the platform timer takes as
    they are.  Mounted with such a delay [d], the flag is false until [d]
    milliseconds have passed, true from then on, and the timer callback runs
    once.  In every reachable state at most one timer is pending, it is the
    one of the committed effect, and none is pending after teardown.  A
    change of the specification removes the pending timer before the effect
    runs again, and that timer's callback never runs.  A change to such a
    delay does not reset the flag: one timer is scheduled for [now + d], the
    flag keeps the value it had for as long as [d] has not passed and is
    true from then on, and the new callback runs once, at that instant. *)
Theorem delayed_activation_timer :
  (forall t0 n icon dts,
      (1 <= n <= TIMEOUT_MAX)%Z -> Forall (fun dt => 0 <= dt)%Q dts ->
      let d := inject_Z n in
      let s := run (mount t0 (LObject (Num (Finite d)) icon))
                   (map Elapse dts) in
      innerLoading s = Qle_bool d (total dts)
      /\ fired s = (if Qle_bool d (total dts) then [0%nat] else [])
      /\ List.length (fired s)
         = (if Qle_bool d (total dts) then 1 else 0)%nat)
  /\ (forall s,
        reachable s ->
        (List.length (pending s) <= 1)%nat
        /\ (forall t, In t (pending s) -> delayTimer s = Some (handle t))
        /\ (mounted s = false -> pending s = []))
  /\ (forall s l t,
        reachable s -> mounted s = true ->
        same_deps (deps s) (getLoadingConfig l) = false ->
        In t (pending s) ->
        ~ In (handle t) (map handle (pending (update l s)))
        /\ forall es, ~ In (handle t) (fired (run (update l s) es)))
  /\ (forall s l n dts,
        reachable s -> mounted s = true ->
        same_deps (deps s) (getLoadingConfig l) = false ->
        delay (getLoadingConfig l) = Finite (inject_Z n) ->
        (1 <= n <= TIMEOUT_MAX)%Z ->
        Forall (fun dt => 0 <= dt)%Q dts ->
        let d := inject_Z n in
        let s' := run (update l s) (map Elapse dts) in
        innerLoading (update l s) = innerLoading s
        /\ pending (update l s)
           = [{| handle := next_handle s; due := Some (now s + d)%Q |}]
        /\ innerLoading s' = innerLoading s || Qle_bool d (total dts)
        /\ fired s'
           = (fired s ++ if Qle_bool d (total dts) then [next_handle s]
                         else [])%list
        /\ forall dt, (d <= dt)%Q ->
                      innerLoading (elapse dt (update l s)) = true)
  /\ (forall s es,
        reachable s ->
        pending (unmount s) = []
        /\ fired (run (unmount s) es) = fired s).
Proof.
  split; [|split; [|split; [|split]]].
  - intros t0 n icon dts Hn Hdts. cbv zeta.
    pose proof (whole_positive n (proj1 Hn)) as Hpos.
    destruct (run_armed t0 (inject_Z n) 0 false [] dts Hdts 0 _
                (mount_armed t0 n icon Hn) Hpos) as (Hl & Hf & _).
    rewrite (Qle_bool_compat (inject_Z n) (0 + total dts) (total dts)) in Hl, Hf by ring.
    rewrite Hl, Hf. cbn [orb app].
    destruct (Qle_bool (inject_Z n) (total dts)); auto.
  - intros s R. destruct (reachable_inv s R) as [Ht _].
    unfold timer_inv in Ht. destruct (delayTimer s) as [h|].
    + destruct Ht as ((d & ->) & Hm & _). simpl.
      split; [lia|]. split; [|congruence].
      intros t [<-|[]]. reflexivity.
    + rewrite Ht. simpl. split; [lia|]. split; [intros t []|auto].
  - intros s l t R Hm Hd Hin.
    destruct (reachable_inv s R) as [Ht _].
    pose proof (pending_handles_bound s Ht (handle t) (in_map handle _ _ Hin))
      as Hlt.
    destruct (update_changed l s Ht Hm Hd) as (E & Hp & _ & _ & Hn & _).
    destruct (layoutEffect_shape (getLoadingConfig l) _ Hp)
      as (Hle & Hnew & _).
    rewrite <- E in Hle, Hnew. rewrite Hn in Hle, Hnew.
    assert (Hgone : ~ In (handle t) (map handle (pending (update l s)))).
    { intros Hin'. apply Hnew in Hin'. lia. }
    split; [exact Hgone|]. intros es Hfired.
    apply (retired_run (handle t) es (update l s)) in Hfired.
    + rewrite (update_fired l s Ht) in Hfired.
      apply (reachable_history s R) in Hfired as [_ Hnot].
      apply Hnot. now apply in_map.
    + exact (reach_step s (Update l) R).
    + split; [lia|exact Hgone].
  - intros s l n dts R Hm Hd Hdelay Hn Hdts. cbv zeta.
    pose proof (whole_positive n (proj1 Hn)) as Hpos.
    pose proof (update_armed s l n R Hm Hd Hdelay Hn) as A.
    destruct (run_armed (now s) (inject_Z n) (next_handle s) (innerLoading s) (fired s)
                dts Hdts 0 _ A Hpos) as (Hl & Hf & _).
    rewrite (Qle_bool_compat (inject_Z n) (0 + total dts) (total dts)) in Hl, Hf by ring.
    destruct A as (_ & Hp & _ & _ & Hl0 & _).
    split; [exact Hl0|]. split; [exact Hp|]. split; [exact Hl|].
    split; [exact Hf|].
    intros dt Hdt.
    assert (Hdt0 : Forall (fun x => 0 <= x)%Q [dt])
      by (repeat constructor; lra).
    destruct (run_armed (now s) (inject_Z n) (next_handle s) (innerLoading s) (fired s)
                [dt] Hdt0 0 _ (update_armed s l n R Hm Hd Hdelay Hn) Hpos)
      as (Hl1 & _).
    simpl in Hl1. rewrite Hl1.
    rewrite (Qle_bool_true (inject_Z n) (0 + (dt + 0))) by lra. apply orb_true_r.
  - intros s es R.
    destruct (reachable_inv s R) as [Ht _].
    destruct (cleanupTimer_inv s Ht) as (Hp & Hdt & _ & _ & _ & Hf & _).
    split; [exact Hp|].
    destruct (torn_down_run es (unmount s) eq_refl Hp Hdt) as (-> & _).
    exact Hf.
Qed.

Lemma delayed_activation_timer_witness :
  let delayed := LObject (Num (Finite 300)) Undefined in
  let s := run (mount 0 delayed) (map Elapse [100%Q; 100%Q]) in
  (innerLoading s = false
   /\ innerLoading (elapse 100 s) = true
   /\ List.length (fired (run (mount 0 delayed)
                            (map Elapse [100%Q; 100%Q; 100%Q; 500%Q])))
       = 1%nat)
  /\ (List.length (pending s) <= 1)%nat
  /\ ~ In 0%nat (fired (run (update (LBool false) (mount 0 delayed))
                         [Elapse 500; Update delayed; Elapse 500]))
  /\ (innerLoading (update delayed (mount 0 (LBool true))) = true
      /\ innerLoading (run (update delayed (mount 0 (LBool true)))
                         (map Elapse [100%Q; 100%Q])) = true
      /\ fired (run (update delayed (mount 0 (LBool true)))
                   (map Elapse [100%Q; 100%Q])) = []
      /\ fired (run (update delayed (mount 0 (LBool true)))
                   (map Elapse [100%Q; 100%Q; 100%Q; 500%Q])) = [0%nat]
      /\ innerLoading (elapse 300 (update delayed (mount 0 (LBool true))))
         = true)
  /\ fired (run (unmount (mount 0 delayed)) [Elapse 500]) = [].
Proof.
  intros delayed s.
  destruct delayed_activation_timer
    as (Hmount & Hone & Hcancel & Hkeep & Hdown).
  assert (Hrange : (1 <= 300 <= TIMEOUT_MAX)%Z) by (split; discriminate).
  split; [split; [|split]|split; [|split; [|split]]].
  - apply (Hmount 0 300%Z Undefined [100%Q; 100%Q] Hrange).
    repeat constructor; discriminate.
  - apply (Hmount 0 300%Z Undefined [100%Q; 100%Q; 100%Q] Hrange).
    repeat constructor; discriminate.
  - apply (Hmount 0 300%Z Undefined [100%Q; 100%Q; 100%Q; 500%Q] Hrange).
    repeat constructor; discriminate.
  - apply (Hone s).
    exact (reachable_run (mount 0 delayed) _ (reach_mount 0 delayed)).
  - exact (proj2 (Hcancel (mount 0 delayed) (LBool false)
                    {| handle := 0; due := Some (0 + 300)%Q |}
                    (reach_mount 0 delayed) eq_refl eq_refl
                    (or_introl eq_refl))
             [Elapse 500; Update delayed; Elapse 500]).
  - destruct (Hkeep (mount 0 (LBool true)) delayed 300%Z [100%Q; 100%Q]
                (reach_mount 0 (LBool true)) eq_refl eq_refl eq_refl Hrange)
      as (Hflag & _ & Hduring & Hnone & Hlater);
      [repeat constructor; discriminate|].
    destruct (Hkeep (mount 0 (LBool true)) delayed 300%Z
                [100%Q; 100%Q; 100%Q; 500%Q]
                (reach_mount 0 (LBool true)) eq_refl eq_refl eq_refl Hrange)
      as (_ & _ & _ & Honce & _);
      [repeat constructor; discriminate|].
    split; [exact Hflag|]. split; [exact Hduring|]. split; [exact Hnone|].
    split; [exact Honce|]. apply Hlater. discriminate.
  - exact (proj2 (Hdown (mount 0 delayed) [Elapse 500]
                    (reach_mount 0 delayed))).
Defined.

(** C5, as stated, fails in two ways.  A button that is active
    ([loading = true]) and is then given [{ delay: 300 }] keeps its flag set
    during the whole delay instead of starting again from the inactive
    state.  And a delay the platform timer does not take as it is, such as
    [2^31] milliseconds, has elapsed for the timer after one millisecond: the
    flag is on long before the delay has passed. *)
Lemma delay_after_active_keeps_flag :
  let s := mount 0 (LBool true) in
  let l := LObject (Num (Finite 300)) Undefined in
  innerLoading (update l s) = true
  /\ innerLoading (elapse 100 (update l s)) = true
  /\ fired (elapse 100 (update l s)) = []
  /\ ~ restarts_from_idle
  /\ innerLoading
       (elapse 1 (mount 0 (LObject (Num (Finite 2147483648)) Undefined)))
     = true.
Proof.
  intros s l. split; [reflexivity|]. split; [reflexivity|].
  split; [reflexivity|]. split; [|reflexivity].
  intros H.
  specialize (H s l 300 100 (reach_mount 0 (LBool true)) eq_refl eq_refl
                eq_refl eq_refl).
  assert (E : innerLoading (elapse 100 (update l s)) = false).
  { apply H; [discriminate | reflexivity]. }
  discriminate E.
Qed.

(** ** Click gate *)

Import Click.

(** C6: while the loading flag is set or the button is disabled, a click
    has its default action prevented and the [onClick] prop is not called;
    otherwise the default action is left alone and the handler, when there
    is one, is called once with the event, cast to the anchor event type
    when [href] is a key of the props and to the button event type when it
    is not. *)
Theorem click_gate (p : ButtonProps) (ctx_disabled : option bool)
  (innerLoading : bool) (e : event) :
  let mergedDisabled := mergedDisabled p ctx_disabled in
  let log := handleClick p innerLoading mergedDisabled e in
  (innerLoading = true \/ flag mergedDisabled = true ->
     log = [preventDefault e] /\ calls log = 0%nat
     /\ forall f c e', ~ In (call_onClick f c e') log)
  /\ (innerLoading = false -> flag mergedDisabled = false ->
        ~ In (preventDefault e) log
        /\ (forall f, onClick p = Some f ->
              log = [call_onClick f
                       (if href_in_props p then AsAnchorEvent
                        else AsButtonEvent) e]
              /\ calls log = 1%nat)
        /\ (onClick p = None -> log = [])).
Proof.
  intros md log. subst log. unfold handleClick. split.
  - intros H.
    assert (E : innerLoading || flag md = true).
    { destruct H as [-> | ->]; [reflexivity | apply orb_true_r]. }
    rewrite E. split; [reflexivity|]. split; [reflexivity|].
    intros f c e' [H'|[]]. discriminate H'.
  - intros -> ->. simpl.
    destruct (onClick p) as [f|]; split.
    + intros [H|[]]. discriminate H.
    + split; [|discriminate]. intros f' [= <-]. auto.
    + intros [].
    + split; [discriminate|reflexivity].
Qed.

Lemma click_gate_witness :
  let link := {| Button.loading := LUndefined; color := None;
                 variant := None; type := None; danger := None;
                 shape := None; disabled := Some true; children := Str "Go";
                 icon := Undefined; href := Given "/x";
                 onClick := Some 7%nat; autoInsertSpace := None |} in
  let action := {| Button.loading := LUndefined; color := None;
                   variant := None; type := None; danger := None;
                   shape := None; disabled := None; children := Str "Go";
                   icon := Undefined; href := Missing;
                   onClick := Some 7%nat; autoInsertSpace := None |} in
  handleClick link false (mergedDisabled link None) 1%nat
  = [preventDefault 1%nat]
  /\ handleClick action true (mergedDisabled action None) 1%nat
     = [preventDefault 1%nat]
  /\ handleClick action false (mergedDisabled action None) 1%nat
     = [call_onClick 7%nat AsButtonEvent 1%nat].
Proof.
  intros link action. split; [|split].
  - exact (proj1 (proj1 (click_gate link None false 1%nat)
                    (or_intror eq_refl))).
  - exact (proj1 (proj1 (click_gate action None true 1%nat)
                    (or_introl eq_refl))).
  - destruct (proj2 (click_gate action None false 1%nat) eq_refl eq_refl)
      as (_ & Hcall & _).
    exact (proj1 (Hcall 7%nat eq_refl)).
Defined.

(** ** Render decisions *)

Import Render.

(** C7: with an [href], the component returns an [<a>] whether or not it
    is disabled.  When disabled, the [href] attribute is left undefined,
    [tabIndex] is -1, [aria-disabled] is true and the disabled class is in
    the class name; when not disabled, the [href] is the one given, the
    [tabIndex] is 0 and the disabled class is left out. *)
Theorem disabled_link_attributes
  (isUnBorderedButtonVariant : option ButtonVariantType -> bool)
  (p : ButtonProps) (button_ctx : option ButtonConfig)
  (ctx_disabled : option bool) (innerLoading isMount : bool)
  (target : string) :
  href p = Given target ->
  exists attrs,
    render isUnBorderedButtonVariant p button_ctx ctx_disabled
           innerLoading isMount
    = a_tag attrs (iconNode p innerLoading isMount)
    /\ (flag (mergedDisabled p ctx_disabled) = true ->
          a_href attrs = None
          /\ a_tabIndex attrs = (-1)%Z
          /\ a_aria_disabled attrs = Some true
          /\ a_disabled_class attrs = true)
    /\ (flag (mergedDisabled p ctx_disabled) = false ->
          a_href attrs = Some target
          /\ a_tabIndex attrs = 0%Z
          /\ a_disabled_class attrs = false
          /\ a_aria_disabled attrs <> Some true).
Proof.
  intros Hhref. unfold render. rewrite Hhref.
  eexists. split; [reflexivity|]. simpl.
  destruct (mergedDisabled p ctx_disabled) as [[]|]; simpl;
    split; intros H; try discriminate H; repeat split; discriminate.
Qed.

Lemma disabled_link_attributes_witness :
  let link d := {| Button.loading := LUndefined; color := None;
                   variant := None; type := None; danger := None;
                   shape := None; disabled := d; children := Str "Go";
                   icon := Undefined; href := Given "/x"; onClick := None;
                   autoInsertSpace := None |} in
  (exists attrs,
      render (fun _ => false) (link (Some true)) None None false true
      = a_tag attrs (iconNode (link (Some true)) false true)
      /\ a_href attrs = None /\ a_tabIndex attrs = (-1)%Z
      /\ a_aria_disabled attrs = Some true)
  /\ (exists attrs,
        render (fun _ => false) (link None) None None false true
        = a_tag attrs (iconNode (link None) false true)
        /\ a_href attrs = Some "/x" /\ a_tabIndex attrs = 0%Z).
Proof.
  intros link. split.
  - destruct (disabled_link_attributes (fun _ => false) (link (Some true))
                None None false true "/x" eq_refl) as (attrs & E & Hdis & _).
    exists attrs. split; [exact E|].
    destruct (Hdis eq_refl) as (H1 & H2 & H3 & _). auto.
  - destruct (disabled_link_attributes (fun _ => false) (link None)
                None None false true "/x" eq_refl) as (attrs & E & _ & Hen).
    exists attrs. split; [exact E|].
    destruct (Hen eq_refl) as (H1 & H2 & _). auto.
Defined.

Lemma icon_of_truthy (l : LoadingProp) :
  truthy (icon_of l) = true ->
  loading_truthy l = true /\ is_object (typeof_loading l) = true.
Proof. destruct l; simpl; try discriminate. auto. Qed.

Lemma mount_seen_rendering (current : bool) (n : nat) :
  mount_seen current (repeat Rendering n) = repeat current n.
Proof. induction n as [|n IH]; simpl; [reflexivity|]. now rewrite IH. Qed.

Lemma isMountRef_rendering (current : bool) (n : nat) :
  fold_left life_step (repeat Rendering n) current = current.
Proof. induction n as [|n IH]; simpl; auto. Qed.

(** X21: the icon node, branch by branch.  A truthy [icon] prop is
    rendered when the loading flag is off.  Otherwise, when the [loading]
    prop is an object carrying a truthy [icon], that icon is rendered,
    whether the loading flag is on or not.  Otherwise the default loading
    icon is rendered, with [existIcon] telling whether an [icon] prop
    exists, [loading] the loading flag and [mount] the first-mount ref.  The
    ref is true until the mount effect has run, false from then on while the
    component is mounted, and true again after removal: the first render
    reads true, every later render false, the first render after a remount
    true. *)
Theorem icon_selection (p : ButtonProps) (innerLoading isMount : bool) :
  let l := loading_prop p in
  (truthy (icon p) = true -> innerLoading = false ->
     iconNode p innerLoading isMount = IconWrapper (icon p))
  /\ (truthy (icon p) = false \/ innerLoading = true ->
      loading_truthy l = true -> truthy (icon_of l) = true ->
      iconNode p innerLoading isMount = IconWrapper (icon_of l))
  /\ (truthy (icon p) = false \/ innerLoading = true ->
      loading_truthy l = false \/ truthy (icon_of l) = false ->
      iconNode p innerLoading isMount
      = DefaultLoadingIcon (truthy (icon p)) innerLoading isMount)
  /\ (forall n,
        mount_seen isMountRef_init
          (Rendering :: Committed :: repeat Rendering n)
        = true :: repeat false n)
  /\ (forall n,
        isMountRef_after
          (Rendering :: Committed :: repeat Rendering n ++ [Removed])
        = true)
  /\ (forall n,
        mount_seen isMountRef_init
          (Rendering :: Committed :: repeat Rendering n
             ++ [Removed; Rendering; Committed; Rendering])
        = true :: repeat false n ++ [true; false])
  /\ (forall n,
        isMountRef_after [Rendering] = true
        /\ isMountRef_after (Rendering :: Committed :: repeat Rendering n)
           = false).
Proof.
  intros l. unfold iconNode. fold l.
  split; [|split; [|split; [|split; [|split; [|split]]]]];
    [| | | | | | intros n; split; [reflexivity|];
                 unfold isMountRef_after; simpl;
                 apply isMountRef_rendering].
  - intros -> ->. reflexivity.
  - intros H Hl Hi.
    assert (E : truthy (icon p) && negb innerLoading = false).
    { destruct H as [-> | ->]; [reflexivity | apply andb_false_r]. }
    rewrite E, Hl, Hi.
    destruct (icon_of_truthy l Hi) as [_ ->]. reflexivity.
  - intros H Hl.
    assert (E : truthy (icon p) && negb innerLoading = false).
    { destruct H as [-> | ->]; [reflexivity | apply andb_false_r]. }
    rewrite E.
    destruct Hl as [-> | ->]; [reflexivity|].
    now rewrite andb_false_r.
  - intros n. simpl. now rewrite mount_seen_rendering.
  - intros n. unfold isMountRef_after. simpl.
    now rewrite fold_left_app.
  - intros n. simpl. f_equal.
    induction n as [|n IH]; simpl; [reflexivity|]. now rewrite IH.
Qed.

Lemma icon_selection_witness :
  let spinner := Obj 1 in
  let search := Obj 2 in
  let p := {| Button.loading := LObject Undefined spinner; color := None;
              variant := None; type := None; danger := None; shape := None;
              disabled := None; children := Str "Go"; icon := search;
              href := Missing; onClick := None; autoInsertSpace := None |} in
  iconNode p false false = IconWrapper search
  /\ iconNode p true false = IconWrapper spinner
  /\ iconNode no_props false true = DefaultLoadingIcon false false true.
Proof.
  intros spinner search p. split; [|split].
  - exact (proj1 (icon_selection p false false) eq_refl eq_refl).
  - exact (proj1 (proj2 (icon_selection p true false))
             (or_intror eq_refl) eq_refl eq_refl).
  - exact (proj1 (proj2 (proj2 (icon_selection no_props false true)))
             (or_introl eq_refl) (or_introl eq_refl)).
Defined.

(** C8: the second branch tests the [loading] prop where the first tests
    the loading flag.  A button with [loading = { delay: 1000, icon }] and
    no [icon] is not loading while it waits for its delay: the flag is off,
    the loading class is off and [iconType] is undefined, as for a button
    without icon.  Yet the icon node is the icon of the [loading] prop, not
    the default loading icon with [loading = false]. *)
Theorem loading_icon_shown_during_delay :
  let p := {| Button.loading := LObject (Num (Finite 1000)) (Obj 1);
              color := None; variant := None; type := None; danger := None;
              shape := None; disabled := None; children := Str "Go";
              icon := Undefined; href := Missing; onClick := None;
              autoInsertSpace := None |} in
  let s := mount 0 (loading_prop p) in
  innerLoading s = false
  /\ innerLoading (elapse 999 s) = false
  /\ iconType p (innerLoading s) = Undefined
  /\ iconNode p (innerLoading s) true = IconWrapper (Obj 1)
  /\ iconNode p (innerLoading s) true
     <> DefaultLoadingIcon (truthy (icon p)) (innerLoading s) true.
Proof. repeat split; try reflexivity. discriminate. Qed.

(** C9: the icon-only class is on exactly when [children] is falsy and is
    not the number 0, and an icon is there: the loading flag is set or the
    [icon] prop is truthy.  With [children = 0] it is off. *)
Theorem icon_only_detection (p : ButtonProps) (innerLoading : bool) :
  (icon_only p innerLoading = true <->
     (truthy (children p) = false /\ is_zero (children p) = false)
     /\ (innerLoading = true \/ truthy (icon p) = true))
  /\ (children p = Num (Finite 0) -> icon_only p innerLoading = false)
  /\ (In (children p) [Undefined; Null; Bool false; Str ""] ->
      icon_only p innerLoading = innerLoading || truthy (icon p)).
Proof.
  unfold icon_only, iconType. split; [|split].
  - rewrite !andb_true_iff, !negb_true_iff.
    destruct innerLoading; simpl; intuition congruence.
  - intros ->. reflexivity.
  - intros [<-|[<-|[<-|[<-|[]]]]]; simpl; now destruct innerLoading.
Qed.

Lemma icon_only_detection_witness :
  let with_children c :=
    {| Button.loading := LUndefined; color := None; variant := None;
       type := None; danger := None; shape := None; disabled := None;
       children := c; icon := Obj 2; href := Missing; onClick := None;
       autoInsertSpace := None |} in
  icon_only (with_children (Num (Finite 0))) false = false
  /\ icon_only (with_children Undefined) false = true
  /\ icon_only no_props true = true.
Proof.
  intros with_children. split; [|split].
  - exact (proj1 (proj2 (icon_only_detection
                           (with_children (Num (Finite 0))) false)) eq_refl).
  - exact (proj2 (proj2 (icon_only_detection (with_children Undefined)
                           false)) (or_introl eq_refl)).
  - exact (proj2 (proj1 (icon_only_detection no_props true))
             (conj (conj eq_refl eq_refl) (or_introl eq_refl))).
Defined.

(** C10: the two-Chinese-characters class is on only while the loading
    flag is off.  When the conditions for the spacing hold (one child, no
    icon, a bordered variant, auto-space on, a text of two Chinese
    characters) the effect sets [hasTwoCNChar], and the class is then on
    exactly when the loading flag is off.  The auto-space setting is the
    prop when given, else the one of the context when given, else true. *)
Theorem two_chinese_chars_only_when_idle
  (isUnBorderedButtonVariant : option ButtonVariantType -> bool)
  (isTwoCNChar : string -> bool) (Children_count : value -> nat) :
  (forall hasTwoCNChar mergedInsertSpace,
      two_chinese_chars hasTwoCNChar mergedInsertSpace true = false)
  /\ (forall hasTwoCNChar mergedInsertSpace innerLoading,
        two_chinese_chars hasTwoCNChar mergedInsertSpace innerLoading = true ->
        innerLoading = false)
  /\ (forall p button ctx_auto buttonText hasTwoCNChar innerLoading,
        Children_count (children p) = 1%nat ->
        truthy (icon p) = false ->
        isUnBorderedButtonVariant (mergedVariant p button) = false ->
        mergedInsertSpace p ctx_auto = true ->
        isTwoCNChar buttonText = true ->
        let inserted :=
          needInserted isUnBorderedButtonVariant Children_count p button in
        let has :=
          twoCNChar_effect isTwoCNChar (Some buttonText)
            (mergedInsertSpace p ctx_auto) inserted hasTwoCNChar in
        inserted = true /\ has = true
        /\ two_chinese_chars has (mergedInsertSpace p ctx_auto) innerLoading
           = negb innerLoading)
  /\ (forall p, autoInsertSpace p = None -> mergedInsertSpace p None = true)
  /\ (forall p ctx_auto b,
        autoInsertSpace p = Some b -> mergedInsertSpace p ctx_auto = b)
  /\ (forall p b,
        autoInsertSpace p = None -> mergedInsertSpace p (Some b) = b).
Proof.
  split; [|split; [|split; [|split; [|split]]]].
  - intros h m. unfold two_chinese_chars. apply andb_false_r.
  - intros h m il. unfold two_chinese_chars.
    rewrite !andb_true_iff, negb_true_iff. tauto.
  - intros p button ctx_auto buttonText h il Hc Hi Hv Hm Ht inserted has.
    assert (E : inserted = true).
    { subst inserted. unfold needInserted. now rewrite Hc, Hi, Hv. }
    assert (E' : has = true).
    { subst has. rewrite E, Hm. unfold twoCNChar_effect. simpl.
      rewrite Ht. now destruct h. }
    rewrite E', Hm. auto.
  - intros p H. unfold mergedInsertSpace. now rewrite H.
  - intros p c b H. unfold mergedInsertSpace. now rewrite H.
  - intros p b H. unfold mergedInsertSpace. now rewrite H.
Qed.

Lemma two_chinese_chars_only_when_idle_witness :
  let p := {| Button.loading := LBool true; color := None; variant := None;
              type := None; danger := None; shape := None; disabled := None;
              children := Str "确定"; icon := Undefined; href := Missing;
              onClick := None; autoInsertSpace := None |} in
  let has := twoCNChar_effect (String.eqb "确定") (Some "确定")
               (mergedInsertSpace p None)
               (needInserted (fun _ => false) (fun _ => 1%nat) p None)
               false in
  has = true
  /\ two_chinese_chars has (mergedInsertSpace p None) true = false
  /\ mergedInsertSpace p None = true.
Proof.
  intros p has.
  destruct (two_chinese_chars_only_when_idle
              (fun _ => false) (String.eqb "确定") (fun _ => 1%nat))
    as (_ & _ & Hcond & Hdef & _).
  destruct (Hcond p None None "确定" false true eq_refl eq_refl eq_refl
              eq_refl eq_refl) as (_ & Hhas & Hcls).
  split; [exact Hhas|]. split; [exact Hcls|].
  exact (Hdef p eq_refl).
Defined.

(* ================================================================== *)
(** * Further properties of the loading automaton *)

Lemma same_number_refl (n : number) : same_number n n = true.
Proof. destruct n; simpl; auto. apply Qeq_bool_iff. reflexivity. Qed.

Lemma same_deps_refl (c : LoadingConfigType) : same_deps c c = true.
Proof.
  unfold same_deps. rewrite same_number_refl. simpl. apply eqb_reflx.
Qed.

Lemma layoutEffect_keeps (c : LoadingConfigType) (s : Instance) :
  deps (layoutEffect c s) = deps s
  /\ mounted (layoutEffect c s) = mounted s
  /\ now (layoutEffect c s) = now s.
Proof.
  unfold layoutEffect, setTimeout, setLoading.
  destruct (gt0 (delay c)); simpl; auto.
  destruct (mounted s) eqn:E; simpl; rewrite ?E; auto.
Qed.

Lemma fire_keeps (s : Instance) (t : Timer) :
  deps (fire s t) = deps s
  /\ mounted (fire s t) = mounted s
  /\ now (fire s t) = now s
  /\ next_handle (fire s t) = next_handle s
  /\ (innerLoading s = true -> innerLoading (fire s t) = true)
  /\ fired (fire s t) = (fired s ++ [handle t])%list.
Proof.
  unfold fire, timer_callback, setLoading; simpl.
  destruct (delayTimer s) as [h|]; simpl;
    [destruct (Nat.eqb (handle t) h); simpl|];
    destruct (mounted s) eqn:E; simpl; rewrite ?E; auto 10.
Qed.

Lemma fire_all_keeps (ts : list Timer) (s : Instance) :
  deps (fold_left fire ts s) = deps s
  /\ mounted (fold_left fire ts s) = mounted s
  /\ now (fold_left fire ts s) = now s
  /\ (innerLoading s = true -> innerLoading (fold_left fire ts s) = true)
  /\ fired (fold_left fire ts s) = (fired s ++ map handle ts)%list.
Proof.
  revert s. induction ts as [|t ts IH]; intros s; simpl.
  - rewrite app_nil_r. auto.
  - destruct (fire_keeps s t) as (Hd & Hm & Hn & _ & Hl & Hf).
    destruct (IH (fire s t)) as (Hd' & Hm' & Hn' & Hl' & Hf').
    rewrite Hd', Hm', Hn', Hf', Hd, Hm, Hn, Hf, <- app_assoc. simpl.
    repeat split; auto.
Qed.

Lemma elapse_keeps (dt : Q) (s : Instance) :
  deps (elapse dt s) = deps s
  /\ mounted (elapse dt s) = mounted s
  /\ (innerLoading s = true -> innerLoading (elapse dt s) = true)
  /\ exists hs, fired (elapse dt s) = (fired s ++ hs)%list.
Proof.
  unfold elapse.
  match goal with
  | |- context [fold_left fire ?ts ?s1] =>
      destruct (fire_all_keeps ts s1) as (Hd & Hm & _ & Hl & Hf)
  end.
  rewrite Hd, Hm, Hf. simpl. eauto.
Qed.

Lemma run_elapse_keeps (dts : list Q) (s : Instance) :
  deps (run s (map Elapse dts)) = deps s
  /\ mounted (run s (map Elapse dts)) = mounted s.
Proof.
  revert s. induction dts as [|dt dts IH]; intros s; simpl; [auto|].
  destruct (IH (elapse dt s)) as (-> & ->).
  destruct (elapse_keeps dt s) as (-> & -> & _). auto.
Qed.

Lemma mount_deps (t0 : Q) (l : LoadingProp) :
  deps (mount t0 l) = getLoadingConfig l /\ mounted (mount t0 l) = true.
Proof.
  unfold mount.
  match goal with
  | |- context [layoutEffect ?c ?s] =>
      destruct (layoutEffect_keeps c s) as (-> & -> & _)
  end.
  auto.
Qed.

(** X1: a render whose [loading] prop normalises to the committed
    specification leaves the instance as it is: the pending timer keeps its
    deadline.  In particular a new [icon] in the [loading] object, or
    [true] in place of an object without delay, does not restart anything. *)
Theorem equal_specification_keeps_timer :
  (forall t0 l l' dts,
      getLoadingConfig l' = getLoadingConfig l ->
      let s := run (mount t0 l) (map Elapse dts) in
      update l' s = s)
  /\ (forall t0 d icon icon' dts,
        let s := run (mount t0 (LObject d icon)) (map Elapse dts) in
        update (LObject d icon') s = s)
  /\ (forall t0 icon dts,
        let s := run (mount t0 (LBool true)) (map Elapse dts) in
        update (LObject Undefined icon) s = s).
Proof.
  assert (H : forall t0 l l' dts,
             getLoadingConfig l' = getLoadingConfig l ->
             update l' (run (mount t0 l) (map Elapse dts))
             = run (mount t0 l) (map Elapse dts)).
  { intros t0 l l' dts E. unfold update.
    destruct (run_elapse_keeps dts (mount t0 l)) as (Hd & Hm).
    destruct (mount_deps t0 l) as (Hd0 & Hm0).
    rewrite Hm, Hm0, Hd, Hd0, E, same_deps_refl. reflexivity. }
  split; [exact H|]. split.
  - intros t0 d icon icon' dts s. apply H.
    now rewrite !getLoadingConfig_object.
  - intros t0 icon dts s. apply H. reflexivity.
Qed.

Lemma equal_specification_keeps_timer_witness :
  let s := run (mount 0 (LObject (Num (Finite 300)) (Obj 1)))
               (map Elapse [100%Q]) in
  update (LObject (Num (Finite 300)) (Obj 2)) s = s
  /\ pending s = [{| handle := 0; due := Some (0 + 300)%Q |}].
Proof.
  intros s. split; [|reflexivity].
  exact (proj1 equal_specification_keeps_timer 0
           (LObject (Num (Finite 300)) (Obj 1))
           (LObject (Num (Finite 300)) (Obj 2)) [100%Q] eq_refl).
Defined.

(** X2: once the flag is on, time and removal leave it on; the only step
    that turns it off is an update that commits an inactive specification
    without delay.  A change to a delayed specification keeps it on. *)
Theorem flag_turned_off_only_by_inactive_update
  (s : Instance) (e : Event) :
  innerLoading s = true ->
  innerLoading (step s e) = false ->
  exists l, e = Update l
            /\ loading (getLoadingConfig l) = false
            /\ gt0 (delay (getLoadingConfig l)) = false
            /\ same_deps (deps s) (getLoadingConfig l) = false.
Proof.
  intros Hon Hoff. destruct e as [l|dt|]; simpl in Hoff.
  - exists l. split; [reflexivity|].
    unfold update in Hoff.
    destruct (mounted s) eqn:Hm; [|congruence].
    destruct (same_deps _ _) eqn:Hs; [congruence|].
    unfold layoutEffect in Hoff.
    destruct (gt0 (delay (getLoadingConfig l))) eqn:Hg; simpl in Hoff.
    + unfold cleanupTimer in Hoff.
      destruct (delayTimer s); simpl in Hoff; congruence.
    + unfold setLoading in Hoff; simpl in Hoff.
      assert (Hm' : mounted (cleanupTimer s) = true).
      { unfold cleanupTimer. destruct (delayTimer s); simpl; exact Hm. }
      rewrite Hm' in Hoff. simpl in Hoff. auto.
  - destruct (elapse_keeps dt s) as (_ & _ & Hl & _).
    rewrite (Hl Hon) in Hoff. discriminate.
  - unfold unmount, cleanupTimer in Hoff.
    destruct (delayTimer s); simpl in Hoff; congruence.
Qed.

Lemma flag_turned_off_only_by_inactive_update_witness :
  exists l, Update (LBool false) = Update l
            /\ loading (getLoadingConfig l) = false
            /\ gt0 (delay (getLoadingConfig l)) = false
            /\ same_deps (deps (mount 0 (LBool true))) (getLoadingConfig l)
               = false.
Proof.
  exact (flag_turned_off_only_by_inactive_update (mount 0 (LBool true))
           (Update (LBool false)) eq_refl eq_refl).
Defined.

Import Observe.

Lemma elapse_single (dt : Q) (s : Instance) (t : Timer) :
  pending s = [t] ->
  elapse dt s
  = if is_due (now s + dt) t then fire (with_clock (now s + dt) s) t
    else with_clock (now s + dt) s.
Proof.
  intros Hp. unfold elapse; simpl. rewrite Hp; simpl.
  now destruct (is_due _ _).
Qed.

Lemma fire_single (s : Instance) (h : nat) (d : option Q) :
  pending s = [{| handle := h; due := d |}] ->
  delayTimer s = Some h -> mounted s = true ->
  let s' := fire s {| handle := h; due := d |} in
  now s' = now s /\ next_handle s' = next_handle s /\ pending s' = []
  /\ mounted s' = true /\ innerLoading s' = true /\ deps s' = deps s
  /\ delayTimer s' = None /\ fired s' = (fired s ++ [h])%list.
Proof.
  intros Hp E Hm. unfold fire, timer_callback, setLoading; simpl.
  rewrite E, Nat.eqb_refl; simpl. rewrite Hm; simpl.
  rewrite Hp, dequeue_single. auto 10.
Qed.

(** X3: letting [a] and then [b] milliseconds pass leaves the instance in
    the state one wait of [a + b] milliseconds leaves it in: the same flag,
    queue and callbacks run. *)
Theorem elapse_in_two_steps (s : Instance) (a b : Q) :
  reachable s -> (0 <= b)%Q ->
  same_but_clock (elapse b (elapse a s)) (elapse (a + b) s).
Proof.
  intros R Hb. destruct (reachable_inv s R) as [Ht _].
  unfold timer_inv in Ht. destruct (delayTimer s) as [h|] eqn:E.
  - destruct Ht as ((d & Hp) & Hm & _).
    pose proof (fire_single (with_clock (now s + a) s) h d Hp E Hm) as F1.
    pose proof (fire_single (with_clock (now s + (a + b)) s) h d Hp E Hm)
      as F2.
    pose proof (fire_single
                  (with_clock (now s + a + b) (with_clock (now s + a) s))
                  h d Hp E Hm) as F3.
    cbv zeta in F1, F2, F3.
    destruct F1 as (N1 & H1 & P1 & M1 & L1 & D1 & T1 & X1).
    destruct F2 as (N2 & H2 & P2 & M2 & L2 & D2 & T2 & X2).
    destruct F3 as (N3 & H3 & P3 & M3 & L3 & D3 & T3 & X3).
    rewrite (elapse_single a s _ Hp), (elapse_single (a + b) s _ Hp).
    unfold is_due; simpl. destruct d as [q|].
    + destruct (Qle_bool q (now s + a)) eqn:Hq.
      * apply Qle_bool_iff in Hq.
        rewrite (Qle_bool_true q (now s + (a + b))) by lra.
        rewrite (elapse_idle b _ P1).
        unfold same_but_clock.
        cbn [with_clock now next_handle pending mounted innerLoading deps
             delayTimer fired].
        rewrite N1, H1, P1, M1, L1, D1, T1, X1, N2, H2, P2, M2, L2, D2, T2,
          X2.
        cbn [with_clock now next_handle pending mounted innerLoading deps
             delayTimer fired].
        repeat split; try reflexivity. ring.
      * rewrite (elapse_single b (with_clock (now s + a) s) _ Hp).
        unfold is_due; simpl.
        rewrite (Qle_bool_compat q (now s + a + b) (now s + (a + b)))
          by ring.
        destruct (Qle_bool q (now s + (a + b))).
        -- unfold same_but_clock.
           rewrite N3, H3, P3, M3, L3, D3, T3, X3, N2, H2, P2, M2, L2, D2,
             T2, X2.
           cbn [with_clock now next_handle pending mounted innerLoading deps
                delayTimer fired].
           repeat split; try reflexivity. ring.
        -- unfold same_but_clock; simpl. repeat split; try reflexivity. ring.
    + rewrite (elapse_single b (with_clock (now s + a) s) _ Hp).
      unfold is_due; simpl.
      unfold same_but_clock; simpl. repeat split; try reflexivity. ring.
  - rewrite (elapse_idle a s Ht), (elapse_idle (a + b) s Ht),
      (elapse_idle b (with_clock (now s + a) s) Ht).
    unfold same_but_clock; simpl. repeat split; try reflexivity. ring.
Qed.

Lemma elapse_in_two_steps_witness :
  same_but_clock
    (elapse 200 (elapse 100 (mount 0 (LObject (Num (Finite 300)) Undefined))))
    (elapse (100 + 200) (mount 0 (LObject (Num (Finite 300)) Undefined))).
Proof.
  apply elapse_in_two_steps; [apply reach_mount | discriminate].
Defined.

Lemma run_idle (dts : list Q) (s : Instance) :
  pending s = [] ->
  innerLoading (run s (map Elapse dts)) = innerLoading s
  /\ fired (run s (map Elapse dts)) = fired s
  /\ pending (run s (map Elapse dts)) = [].
Proof.
  revert s. induction dts as [|dt dts IH]; intros s Hp; simpl; [auto|].
  rewrite (elapse_idle dt s Hp).
  destruct (IH (with_clock (now s + dt) s) Hp) as (-> & -> & ->). auto.
Qed.

Lemma update_settles (l : LoadingProp) (s : Instance) :
  reachable s -> mounted s = true ->
  gt0 (delay (getLoadingConfig l)) = false ->
  innerLoading (update l s) = loading (getLoadingConfig l)
  /\ pending (update l s) = [].
Proof.
  intros R Hm Hg. destruct (reachable_inv s R) as [Ht Hs].
  unfold update. rewrite Hm.
  destruct (same_deps _ _) eqn:E.
  - apply andb_true_iff in E as [En El].
    apply same_number_gt0 in En. apply eqb_prop in El. split.
    + rewrite <- El. apply Hs; congruence.
    + unfold timer_inv in Ht. destruct (delayTimer s); [|exact Ht].
      destruct Ht as (_ & _ & Hg' & _). congruence.
  - destruct (cleanupTimer_inv s Ht) as (Hp & _ & Hm' & _).
    unfold layoutEffect; simpl. rewrite Hg.
    unfold setLoading; simpl. rewrite Hm', Hm. now split.
Qed.

(** X4: an update to a specification without positive delay settles the
    button for good: the flag takes the value of the specification at once,
    no timer is left, and no amount of time changes the flag or runs a
    callback.  Turning [loading] off during a delay therefore cancels the
    activation. *)
Theorem immediate_specification_is_stable
  (s : Instance) (l : LoadingProp) (dts : list Q) :
  reachable s -> mounted s = true ->
  gt0 (delay (getLoadingConfig l)) = false ->
  let s' := run (update l s) (map Elapse dts) in
  innerLoading s' = loading (getLoadingConfig l)
  /\ pending s' = []
  /\ fired s' = fired s.
Proof.
  intros R Hm Hg s'.
  destruct (update_settles l s R Hm Hg) as (Hl & Hp).
  destruct (run_idle dts (update l s) Hp) as (Hl' & Hf' & Hp').
  subst s'. rewrite Hl', Hf', Hp', Hl.
  rewrite (update_fired l s (proj1 (reachable_inv s R))). auto.
Qed.

Lemma immediate_specification_is_stable_witness :
  let s := elapse 100 (mount 0 (LObject (Num (Finite 300)) Undefined)) in
  let s' := run (update (LBool false) s) (map Elapse [250%Q; 1000%Q]) in
  innerLoading s' = false /\ pending s' = [] /\ fired s' = [].
Proof.
  intros s s'.
  exact (immediate_specification_is_stable s (LBool false) [250%Q; 1000%Q]
           (reach_step (mount 0 (LObject (Num (Finite 300)) Undefined))
              (Elapse 100)
              (reach_mount 0 (LObject (Num (Finite 300)) Undefined)))
           eq_refl eq_refl).
Defined.

Lemma step_fired (s : Instance) (e : Event) :
  timer_inv s ->
  fired (step s e) = fired s
  \/ exists h, In h (map handle (pending s))
               /\ fired (step s e) = (fired s ++ [h])%list.
Proof.
  intros Ht. destruct e as [l|dt|]; simpl.
  - left. now apply update_fired.
  - unfold timer_inv in Ht. destruct (delayTimer s) as [h|] eqn:E.
    + destruct Ht as ((d & Hp) & _).
      rewrite (elapse_single dt s _ Hp), Hp.
      destruct (is_due _ _); [|now left].
      right. exists h. split; [now left|].
      destruct (fire_keeps (with_clock (now s + dt) s)
                  {| handle := h; due := d |}) as (_ & _ & _ & _ & _ & ->).
      reflexivity.
    + left. now rewrite (elapse_idle _ _ Ht).
  - left. destruct (cleanupTimer_inv s Ht) as (_ & _ & _ & _ & _ & Hf & _).
    exact Hf.
Qed.

(** X5: no timer callback ever runs twice, and a timer whose callback has
    run is out of the queue and was handed out by [setTimeout] before. *)
Theorem callbacks_run_once (s : Instance) :
  reachable s ->
  NoDup (fired s)
  /\ forall h, In h (fired s) ->
               (h < next_handle s)%nat /\ ~ In h (map handle (pending s)).
Proof.
  intros R. split; [|exact (reachable_history s R)].
  induction R as [t0 l | s e R IH].
  - unfold mount.
    match goal with
    | |- context [layoutEffect ?c ?s0] =>
        destruct (layoutEffect_shape c s0 eq_refl) as (_ & _ & ->)
    end.
    constructor.
  - destruct (step_fired s e (proj1 (reachable_inv s R)))
      as [-> | (h & Hin & ->)]; [exact IH|].
    apply NoDup_app; [exact IH | repeat constructor; intros [] |].
    intros x Hx [<-|[]].
    apply (reachable_history s R) in Hx as [_ Hnot]. contradiction.
Qed.

Lemma callbacks_run_once_witness :
  NoDup (fired (run (mount 0 (LObject (Num (Finite 300)) Undefined))
                  [Elapse 400; Update (LObject (Num (Finite 50)) Undefined);
                   Elapse 60])).
Proof.
  apply callbacks_run_once. apply reachable_run. apply reach_mount.
Defined.

(** X6: while a specification with positive delay is committed on a
    mounted button, its timer is pending or the flag is already on; and a
    timer is pending only under such a specification. *)
Theorem delayed_specification_pending_or_active (s : Instance) :
  reachable s ->
  (mounted s = true -> gt0 (delay (deps s)) = true ->
   delayTimer s <> None \/ innerLoading s = true)
  /\ (delayTimer s <> None ->
      mounted s = true /\ gt0 (delay (deps s)) = true
      /\ exists t, pending s = [t] /\ delayTimer s = Some (handle t)).
Proof.
  intros R. split.
  - induction R as [t0 l | s e R IH].
    + intros _ Hg. left. destruct (mount_deps t0 l) as (Hd & _).
      rewrite Hd in Hg. unfold mount, layoutEffect. rewrite Hg. simpl.
      discriminate.
    + destruct (reachable_inv s R) as [Ht _].
      destruct e as [l|dt|]; simpl.
      * unfold update. destruct (mounted s) eqn:Hm; [|congruence].
        destruct (same_deps _ _); [rewrite Hm; exact IH|].
        intros _ Hg. left.
        match type of Hg with
        | context [layoutEffect ?c ?s1] =>
            destruct (layoutEffect_keeps c s1) as (Hd & _); rewrite Hd in Hg
        end.
        simpl in Hg. unfold layoutEffect. rewrite Hg. simpl. discriminate.
      * destruct (elapse_keeps dt s) as (Hd & Hm & Hl & _).
        rewrite Hd, Hm. intros Hmt Hg.
        destruct (IH Hmt Hg) as [Hsome|Hon]; [|right; auto].
        unfold timer_inv in Ht. destruct (delayTimer s) as [h|] eqn:E;
          [|congruence].
        destruct Ht as ((d & Hp) & _).
        unfold elapse; simpl. rewrite Hp; simpl.
        destruct (is_due _ _); simpl.
        -- right. unfold fire, timer_callback, setLoading; simpl.
           rewrite E, Nat.eqb_refl; simpl. now rewrite Hmt.
        -- left. rewrite E. discriminate.
      * discriminate.
  - intros Hsome. destruct (reachable_inv s R) as [Ht _].
    unfold timer_inv in Ht. destruct (delayTimer s) as [h|]; [|congruence].
    destruct Ht as ((d & Hp) & Hm & Hg & _).
    split; [exact Hm|]. split; [exact Hg|].
    eexists. split; [exact Hp|reflexivity].
Qed.

Lemma delayed_specification_pending_or_active_witness :
  let s := update (LObject (Num (Finite 200)) Undefined)
             (elapse 300 (mount 0 (LObject (Num (Finite 300)) Undefined))) in
  delayTimer s <> None \/ innerLoading s = true.
Proof.
  intros s.
  refine (proj1 (delayed_specification_pending_or_active s _)
            eq_refl eq_refl).
  exact (reach_step
           (elapse 300 (mount 0 (LObject (Num (Finite 300)) Undefined)))
           (Update (LObject (Num (Finite 200)) Undefined))
           (reach_step (mount 0 (LObject (Num (Finite 300)) Undefined))
              (Elapse 300)
              (reach_mount 0 (LObject (Num (Finite 300)) Undefined)))).
Defined.

Lemma torn_down_mounted (es : list Event) (s : Instance) :
  mounted s = false -> pending s = [] -> delayTimer s = None ->
  mounted (run s es) = false /\ delayTimer (run s es) = None.
Proof.
  revert s. induction es as [|e es IH]; intros s Hm Hp Hd; simpl; [auto|].
  destruct (torn_down_step s e Hm Hp Hd) as (Hm' & Hp' & Hd' & _).
  now apply IH.
Qed.

(** X7: a button that has been removed ignores whatever follows: later
    props and the passing of time change neither its flag nor its queue, and
    it stays removed. *)
Theorem removed_button_is_inert (s : Instance) (es : list Event) :
  reachable s ->
  let s' := run (unmount s) es in
  innerLoading s' = innerLoading s
  /\ mounted s' = false
  /\ pending s' = []
  /\ delayTimer s' = None.
Proof.
  intros R s'. destruct (reachable_inv s R) as [Ht _].
  destruct (cleanupTimer_inv s Ht) as (Hp & Hd & _ & Hl & _).
  destruct (torn_down_run es (unmount s) eq_refl Hp Hd) as (_ & Hl' & Hp').
  destruct (torn_down_mounted es (unmount s) eq_refl Hp Hd) as (Hm' & Hd').
  subst s'. rewrite Hl', Hp', Hm', Hd'. simpl. auto.
Qed.

Lemma removed_button_is_inert_witness :
  innerLoading
    (run (unmount (mount 0 (LObject (Num (Finite 300)) Undefined)))
         [Update (LBool true); Elapse 1000])
  = false.
Proof.
  exact (proj1 (removed_button_is_inert
                  (mount 0 (LObject (Num (Finite 300)) Undefined))
                  [Update (LBool true); Elapse 1000]
                  (reach_mount 0 (LObject (Num (Finite 300)) Undefined)))).
Defined.

(* ================================================================== *)
(** * Object literals and [classNames] *)

Import ClassNames.

Lemma eqb_append_l (p x y : string) :
  String.eqb (p ++ x) (p ++ y) = String.eqb x y.
Proof.
  induction p as [|ch p IH]; simpl; [reflexivity|].
  now rewrite Ascii.eqb_refl.
Qed.

Lemma get_assign (k k' : string) (v : bool) (o : object) :
  get k (assign k' v o) = if String.eqb k' k then Some v else get k o.
Proof.
  induction o as [|[k0 v0] o IH]; simpl.
  - reflexivity.
  - destruct (String.eqb k0 k') eqn:E0; simpl.
    + apply String.eqb_eq in E0. subst k0.
      now destruct (String.eqb k' k).
    + rewrite IH. destruct (String.eqb k0 k) eqn:E1; [|reflexivity].
      apply String.eqb_eq in E1. subst k0. now rewrite String.eqb_sym, E0.
Qed.

Lemma get_fold_assign (k : string) (es : list (string * bool)) (o : object) :
  get k (fold_left (fun o e => assign (fst e) (snd e) o) es o)
  = fold_left (fun acc e => if String.eqb (fst e) k then Some (snd e)
                            else acc) es (get k o).
Proof.
  revert o. induction es as [|[k1 v1] es IH]; intros o; simpl.
  - reflexivity.
  - rewrite IH, get_assign. reflexivity.
Qed.

(** Reading a key of an object literal gives the value of the last entry
    written under that key. *)
Lemma get_literal (k : string) (es : list (string * bool)) :
  get k (literal es) = last_value k es.
Proof. unfold literal, last_value. now rewrite get_fold_assign. Qed.

Lemma keys_assign (k : string) (v : bool) (o : object) :
  map fst (assign k v o)
  = if existsb (String.eqb k) (map fst o) then map fst o
    else (map fst o ++ [k])%list.
Proof.
  induction o as [|[k0 v0] o IH]; simpl; [reflexivity|].
  rewrite (String.eqb_sym k k0).
  destruct (String.eqb k0 k); simpl; [reflexivity|].
  rewrite IH. now destruct (existsb _ _).
Qed.

Lemma assign_NoDup (k : string) (v : bool) (o : object) :
  NoDup (map fst o) -> NoDup (map fst (assign k v o)).
Proof.
  intros H. rewrite keys_assign.
  destruct (existsb (String.eqb k) (map fst o)) eqn:E; [exact H|].
  apply NoDup_app; [exact H | repeat constructor; intros [] |].
  intros x Hx [<-|[]].
  assert (existsb (String.eqb k) (map fst o) = true); [|congruence].
  apply existsb_exists. exists k. split; [exact Hx|apply String.eqb_refl].
Qed.

Lemma literal_NoDup (es : list (string * bool)) : NoDup (map fst (literal es)).
Proof.
  unfold literal.
  assert (H : forall o, NoDup (map fst o) ->
                        NoDup (map fst (fold_left
                                 (fun o e => assign (fst e) (snd e) o) es o))).
  { induction es as [|e es IH]; intros o Ho; simpl; [exact Ho|].
    apply IH. now apply assign_NoDup. }
  apply H. constructor.
Qed.

Lemma get_in_keys (k : string) (o : object) :
  get k o = Some true -> In k (map fst o).
Proof.
  induction o as [|[k0 v0] o IH]; simpl; [discriminate|].
  destruct (String.eqb k0 k) eqn:E.
  - apply String.eqb_eq in E. auto.
  - auto.
Qed.

Lemma keys_on_subset (k : string) (o : object) :
  In k (keys_on o) -> In k (map fst o).
Proof.
  unfold keys_on. intros H. apply in_map_iff in H as ([k0 v0] & <- & Hin).
  apply filter_In in Hin as [Hin _]. apply in_map_iff. now exists (k0, v0).
Qed.

(** A key is among the emitted ones exactly when the object holds a truthy
    value under it. *)
Lemma keys_on_get (k : string) (o : object) :
  NoDup (map fst o) -> (In k (keys_on o) <-> get k o = Some true).
Proof.
  induction o as [|[k0 v0] o IH]; simpl; intros Hnd.
  - split; [intros []|discriminate].
  - inversion Hnd as [|? ? Hnot Hnd']; subst.
    specialize (IH Hnd').
    destruct (String.eqb k0 k) eqn:E.
    + apply String.eqb_eq in E. subst k0.
      unfold keys_on; simpl. destruct v0; simpl.
      * split; auto.
      * split; [|discriminate]. intros H.
        apply (keys_on_subset k o) in H. contradiction.
    + assert (k0 <> k) by (intros ->; rewrite String.eqb_refl in E;
                           discriminate).
      unfold keys_on in *; simpl. destruct v0; simpl; [|exact IH].
      rewrite <- IH. split; [intros [?|?]; [contradiction|auto] | auto].
Qed.

Lemma literal_key_on (k : string) (es : list (string * bool)) :
  In k (keys_on (literal es)) <-> last_value k es = Some true.
Proof. rewrite <- get_literal. apply keys_on_get, literal_NoDup. Qed.

(** In an object literal a later entry under a key replaces the value of
    an earlier one and keeps its place, so [classNames] emits each key at
    most once and decides by the last value written. *)
Lemma classNames_object_last_entry_wins
  (es : list (string * bool)) (k : string) :
  NoDup (pieces (Keys (literal es)))
  /\ (In k (pieces (Keys (literal es))) <-> last_value k es = Some true)
  /\ (forall v, last_value k (es ++ [(k, v)]) = Some v)
  /\ (forall k' v, String.eqb k' k = false ->
                   last_value k (es ++ [(k', v)]) = last_value k es).
Proof.
  split; [|split; [|split]].
  - simpl. unfold keys_on.
    pose proof (literal_NoDup es) as H. revert H.
    generalize (literal es). intros o.
    induction o as [|[k0 v0] o IH]; simpl; intros H; [constructor|].
    inversion H as [|? ? Hnot Hnd]; subst. specialize (IH Hnd).
    destruct v0; simpl; [|exact IH]. constructor; [|exact IH].
    intros Hin. apply Hnot. now apply (keys_on_subset k0 o).
  - apply literal_key_on.
  - intros v. unfold last_value. rewrite fold_left_app. simpl.
    now rewrite String.eqb_refl.
  - intros k' v E. unfold last_value. rewrite fold_left_app. simpl.
    now rewrite E.
Qed.


(* ================================================================== *)
(** * Shape, size and class names *)

Import Appearance.

Lemma sizeCls_cases (k : Look) (c : Scope) :
  sizeCls k c = "lg" \/ sizeCls k c = "sm" \/ sizeCls k c = "".
Proof.
  unfold sizeCls. destruct (sizeFullName k c) as [[]|]; simpl; auto.
Qed.

Lemma resolved_pair_defined (p : ButtonProps) (button : option ButtonConfig) :
  exists c v, mergedColorVariant p button = (Some c, Some v)
              /\ c <> "" /\ v <> "".
Proof.
  pose proof (selected_fires p button) as F.
  rewrite (fires_resolve _ _ _ F). apply outcome_defined, F.
Qed.

Lemma str_nonempty_true (s : string) : s <> "" -> str_nonempty s = true.
Proof. destruct s; [congruence|reflexivity]. Qed.

Ltac last_entry :=
  unfold class_map; rewrite ?get_literal, ?literal_key_on;
  unfold last_value, class_entries; cbn [fold_left fst snd];
  rewrite ?eqb_append_l.

Lemma Some_true_iff (b : bool) : Some b = Some true <-> b = true.
Proof. split; [now intros [= ->] | now intros ->]. Qed.

Lemma mergedColorText_truthy (p : ButtonProps) (button : option ButtonConfig) :
  opt_truthy (mergedColorText p button) = true
  /\ opt_truthy (mergedVariant p button) = true.
Proof.
  destruct (resolved_pair_defined p button) as (c & v & E & Nc & Nv).
  unfold mergedColorText, isDanger, mergedColor, mergedVariant.
  rewrite E. simpl. split; [|now apply str_nonempty_true].
  destruct (String.eqb c "danger"); simpl; [reflexivity|].
  now apply str_nonempty_true.
Qed.

Lemma class_map_state_keys
  (isUnBorderedButtonVariant : option ButtonVariantType -> bool)
  (p : ButtonProps) (k : Look) (c : Scope)
  (button : option ButtonConfig) (ctx_auto : option bool)
  (innerLoading hasTwoCNChar : bool) :
  let value suffix :=
    get (prefixCls c ++ suffix)
        (class_map isUnBorderedButtonVariant p k c button ctx_auto
           innerLoading hasTwoCNChar) in
  value "-icon-only" = Some (icon_only p innerLoading)
  /\ value "-background-ghost"
     = Some (background_ghost isUnBorderedButtonVariant p k button)
  /\ value "-loading" = Some innerLoading
  /\ value "-two-chinese-chars"
     = Some (two_chinese_chars hasTwoCNChar (mergedInsertSpace p ctx_auto)
               innerLoading)
  /\ value "-block" = Some (flag (block k))
  /\ value "-rtl" = Some (is_rtl c)
  /\ value "-icon-end" = Some (icon_at_end k)
  /\ value "-dangerous" = Some (danger_of p).
Proof.
  cbv zeta beta. repeat split; last_entry; simpl; try reflexivity.
  destruct (sizeCls_cases k c) as [E|[E|E]]; rewrite E; reflexivity.
Qed.

Lemma class_map_emits
  (isUnBorderedButtonVariant : option ButtonVariantType -> bool)
  (p : ButtonProps) (k : Look) (c : Scope)
  (button : option ButtonConfig) (ctx_auto : option bool)
  (innerLoading hasTwoCNChar : bool) (key : string) (b : bool) :
  get key (class_map isUnBorderedButtonVariant p k c button ctx_auto
             innerLoading hasTwoCNChar) = Some b ->
  (In key (keys_on (class_map isUnBorderedButtonVariant p k c button
                      ctx_auto innerLoading hasTwoCNChar)) <-> b = true).
Proof.
  intros H. unfold class_map in *.
  rewrite (keys_on_get key _ (literal_NoDup _)), H. apply Some_true_iff.
Qed.

(** X8: the classes that mirror a state are emitted by the class map
    exactly when that state holds, whatever the shape, type, color, variant
    and size are: no other entry of the map can write under their keys. *)
Theorem state_classes_follow_flags
  (isUnBorderedButtonVariant : option ButtonVariantType -> bool)
  (p : ButtonProps) (k : Look) (c : Scope)
  (button : option ButtonConfig) (ctx_auto : option bool)
  (innerLoading hasTwoCNChar : bool) :
  let emitted suffix :=
    In (prefixCls c ++ suffix)
       (keys_on (class_map isUnBorderedButtonVariant p k c button ctx_auto
                   innerLoading hasTwoCNChar)) in
  (emitted "-loading" <-> innerLoading = true)
  /\ (emitted "-icon-only" <-> icon_only p innerLoading = true)
  /\ (emitted "-two-chinese-chars" <->
        hasTwoCNChar = true /\ mergedInsertSpace p ctx_auto = true
        /\ innerLoading = false)
  /\ (emitted "-background-ghost" <->
        flag (ghost k) = true
        /\ isUnBorderedButtonVariant (mergedVariant p button) = false)
  /\ (emitted "-block" <-> flag (block k) = true)
  /\ (emitted "-rtl" <-> direction c = Some "rtl")
  /\ (emitted "-icon-end" <-> iconPosition k = Some "end")
  /\ (emitted "-dangerous" <-> danger_of p = true).
Proof.
  intros emitted. subst emitted. cbv beta.
  destruct (class_map_state_keys isUnBorderedButtonVariant p k c button
              ctx_auto innerLoading hasTwoCNChar)
    as (Hio & Hbg & Hl & Htc & Hb & Hr & Hie & Hd).
  cbv zeta beta in Hio, Hbg, Hl, Htc, Hb, Hr, Hie, Hd.
  rewrite (class_map_emits _ _ _ _ _ _ _ _ _ _ Hio),
    (class_map_emits _ _ _ _ _ _ _ _ _ _ Hbg),
    (class_map_emits _ _ _ _ _ _ _ _ _ _ Hl),
    (class_map_emits _ _ _ _ _ _ _ _ _ _ Htc),
    (class_map_emits _ _ _ _ _ _ _ _ _ _ Hb),
    (class_map_emits _ _ _ _ _ _ _ _ _ _ Hr),
    (class_map_emits _ _ _ _ _ _ _ _ _ _ Hie),
    (class_map_emits _ _ _ _ _ _ _ _ _ _ Hd).
  split; [reflexivity|]. split; [reflexivity|]. split.
  { unfold two_chinese_chars. rewrite !andb_true_iff, negb_true_iff. tauto. }
  split.
  { unfold background_ghost. rewrite andb_true_iff, negb_true_iff. tauto. }
  split; [reflexivity|]. split.
  { unfold is_rtl. destruct (direction c) as [d|].
    - rewrite String.eqb_eq. split; [now intros -> | now intros [= ->]].
    - split; discriminate. }
  split; [|reflexivity].
  unfold icon_at_end. destruct (iconPosition k) as [d|].
  - rewrite String.eqb_eq. split; [now intros -> | now intros [= ->]].
  - split; discriminate.
Qed.

Lemma keys_in_classes
  (isUnBorderedButtonVariant : option ButtonVariantType -> bool)
  (p : ButtonProps) (k : Look) (c : Scope)
  (button : option ButtonConfig) (ctx_auto : option bool)
  (innerLoading hasTwoCNChar : bool) (key : string) :
  In key (keys_on (class_map isUnBorderedButtonVariant p k c button ctx_auto
                     innerLoading hasTwoCNChar)) ->
  In key (tokens (class_args isUnBorderedButtonVariant p k c button ctx_auto
                    innerLoading hasTwoCNChar)).
Proof.
  intros H. unfold tokens, class_args. apply in_flat_map.
  eexists (Keys _). split; [|exact H]. simpl. auto.
Qed.

(** X9: every button carries a class for its legacy type ([default] when
    no [type] is given), one for its resolved color, with [dangerous]
    standing for the color [danger], and one for its resolved variant.  The
    [-default] class is emitted exactly for the default type, whatever the
    shape is. *)
Theorem classes_name_type_color_variant
  (isUnBorderedButtonVariant : option ButtonVariantType -> bool)
  (p : ButtonProps) (k : Look) (c : Scope)
  (button : option ButtonConfig) (ctx_auto : option bool)
  (innerLoading hasTwoCNChar : bool) :
  let M := class_map isUnBorderedButtonVariant p k c button ctx_auto
             innerLoading hasTwoCNChar in
  let emitted key :=
    In key (tokens (class_args isUnBorderedButtonVariant p k c button
                      ctx_auto innerLoading hasTwoCNChar)) in
  exists color variant,
    mergedColorVariant p button = (Some color, Some variant)
    /\ emitted (prefixCls c ++ "-" ++ type_name (mergedType p))
    /\ emitted (prefixCls c ++ "-color-"
                ++ (if String.eqb color "danger" then "dangerous"
                    else color))
    /\ emitted (prefixCls c ++ "-variant-" ++ variant)
    /\ (In (prefixCls c ++ "-default") (keys_on M) <->
        mergedType p = type_default).
Proof.
  intros M emitted. subst M emitted. cbv beta.
  destruct (resolved_pair_defined p button) as (col & v & E & Nc & Nv).
  destruct (mergedColorText_truthy p button) as (Tc & Tv).
  exists col, v. split; [exact E|].
  assert (Hv : mergedVariant p button = Some v)
    by (unfold mergedVariant; now rewrite E).
  assert (Hc : mergedColorText p button
               = Some (if String.eqb col "danger" then "dangerous" else col)).
  { unfold mergedColorText, isDanger, mergedColor. rewrite E. simpl.
    now destruct (String.eqb col "danger"). }
  split; [|split; [|split]].
  - apply keys_in_classes. last_entry.
    destruct (sizeCls_cases k c) as [S|[S|S]]; rewrite S;
      destruct (mergedType p); reflexivity.
  - apply keys_in_classes. last_entry.
    rewrite Hc in *. cbn [interpolate]. simpl in Tc.
    destruct (sizeCls_cases k c) as [S|[S|S]]; rewrite S; simpl;
      rewrite String.eqb_refl, Tc; reflexivity.
  - apply keys_in_classes. last_entry.
    rewrite Hv in *. cbn [interpolate]. simpl in Tv.
    destruct (sizeCls_cases k c) as [S|[S|S]]; rewrite S; simpl;
      rewrite String.eqb_refl, Tv; reflexivity.
  - last_entry.
    destruct (sizeCls_cases k c) as [S|[S|S]]; rewrite S;
      destruct (mergedType p); simpl;
      try (split; [reflexivity | reflexivity]);
      destruct (String.eqb (shape_of p button) "default"); simpl;
      split; intros H; discriminate H.
Qed.

(** X10: the size of the button is the first one defined among the [size]
    prop, the compact scope, the button group and the ambient size.  Only
    [large] and [small] have a class ([-lg], [-sm]); with [middle] or no size
    at all the entry of the class map is off and its key is the bare prefix
    with a dash. *)
Theorem size_class
  (isUnBorderedButtonVariant : option ButtonVariantType -> bool)
  (p : ButtonProps) (k : Look) (c : Scope)
  (button : option ButtonConfig) (ctx_auto : option bool)
  (innerLoading hasTwoCNChar : bool) :
  let M := class_map isUnBorderedButtonVariant p k c button ctx_auto
             innerLoading hasTwoCNChar in
  (forall s, size k = Some s -> sizeFullName k c = Some s)
  /\ (size k = None -> forall s, compactSize c = Some s ->
      sizeFullName k c = Some s)
  /\ (size k = None -> compactSize c = None -> forall s,
      groupSize c = Some s -> sizeFullName k c = Some s)
  /\ (size k = None -> compactSize c = None -> groupSize c = None ->
      sizeFullName k c = ctxSize c)
  /\ (sizeFullName k c = Some large -> In (prefixCls c ++ "-lg") (keys_on M))
  /\ (sizeFullName k c = Some small -> In (prefixCls c ++ "-sm") (keys_on M))
  /\ (sizeFullName k c = Some middle \/ sizeFullName k c = None ->
      sizeCls k c = "" /\ get (prefixCls c ++ "-") M = Some false).
Proof.
  intros M. subst M. unfold sizeFullName at 1 2 3 4, first_defined.
  split; [intros s ->; reflexivity|].
  split; [intros -> s ->; reflexivity|].
  split; [intros -> -> s ->; reflexivity|].
  split; [intros -> -> ->; reflexivity|].
  split; [|split].
  - intros E. last_entry. unfold sizeCls. rewrite E. simpl. reflexivity.
  - intros E. last_entry. unfold sizeCls. rewrite E. simpl. reflexivity.
  - intros E.
    assert (S : sizeCls k c = "")
      by (unfold sizeCls; destruct E as [-> | ->]; reflexivity).
    split; [exact S|]. last_entry. rewrite S. simpl. reflexivity.
Qed.

Lemma size_class_witness :
  let k := {| ghost := None; block := None; iconPosition := None;
              size := Some middle; className := None;
              rootClassName := None |} in
  let c := {| prefixCls := "ant-btn"; hashId := ""; cssVarCls := "";
              direction := None; compactSize := Some large;
              compactItemClassnames := ""; groupSize := Some small;
              ctxSize := None; contextClassName := None |} in
  sizeFullName k c = Some middle /\ sizeCls k c = "".
Proof.
  intros k c.
  destruct (size_class (fun _ => false) no_props k c None None false false)
    as (Hexp & _ & _ & _ & _ & _ & Hnone).
  split; [exact (Hexp middle eq_refl)|].
  exact (proj1 (Hnone (or_introl (Hexp middle eq_refl)))).
Defined.

(** X11: outside a production build, the development warning about
    [ghost] is raised exactly when [ghost] is asked for and the ghost class
    is withheld, which is when the variant is an unbordered one; when the
    class is emitted no warning is raised.  In a production build the
    warning is never raised, whether the class is withheld or not.  Without
    [ghost] neither the class nor the warning appears. *)
Theorem ghost_class_or_warning
  (isUnBorderedButtonVariant : option ButtonVariantType -> bool)
  (NODE_ENV : option string)
  (p : ButtonProps) (k : Look) (c : Scope)
  (button : option ButtonConfig) (ctx_auto : option bool)
  (innerLoading hasTwoCNChar : bool) :
  let emitted :=
    In (prefixCls c ++ "-background-ghost")
       (keys_on (class_map isUnBorderedButtonVariant p k c button ctx_auto
                   innerLoading hasTwoCNChar)) in
  let warned := ghost_warning isUnBorderedButtonVariant NODE_ENV p k button in
  (NODE_ENV <> Some "production" ->
   (warned = true <-> flag (ghost k) = true /\ ~ emitted))
  /\ (NODE_ENV = Some "production" -> warned = false)
  /\ (emitted -> warned = false)
  /\ (flag (ghost k) = false -> ~ emitted /\ warned = false).
Proof.
  intros emitted warned. subst emitted warned.
  destruct (class_map_state_keys isUnBorderedButtonVariant p k c button
              ctx_auto innerLoading hasTwoCNChar) as (_ & Hbg & _).
  cbv zeta beta in Hbg.
  rewrite (class_map_emits _ _ _ _ _ _ _ _ _ _ Hbg).
  unfold ghost_warning, background_ghost.
  assert (Hdev : NODE_ENV <> Some "production" ->
                 not_production NODE_ENV = true).
  { intros H. unfold not_production. destruct NODE_ENV as [env|]; auto.
    destruct (String.eqb env "production") eqn:E; [|reflexivity].
    apply String.eqb_eq in E. congruence. }
  split; [|split; [|split]].
  - intros H. rewrite (Hdev H).
    destruct (flag (ghost k)),
      (isUnBorderedButtonVariant (mergedVariant p button)); simpl;
      intuition congruence.
  - intros ->. reflexivity.
  - destruct (not_production NODE_ENV), (flag (ghost k)),
      (isUnBorderedButtonVariant (mergedVariant p button)); simpl;
      intuition congruence.
  - intros ->. simpl. rewrite andb_false_r. split; [discriminate|reflexivity].
Qed.

Lemma state_classes_follow_flags_witness :
  let c := {| prefixCls := "ant-btn"; hashId := ""; cssVarCls := "";
              direction := Some "rtl"; compactSize := None;
              compactItemClassnames := ""; groupSize := None;
              ctxSize := None; contextClassName := None |} in
  let k := {| ghost := None; block := None; iconPosition := None;
              size := None; className := Some "ant-btn-loading";
              rootClassName := None |} in
  In "ant-btn-rtl"
     (keys_on (class_map (fun _ => false) no_props k c None None false false))
  /\ ~ In "ant-btn-loading"
       (keys_on (class_map (fun _ => false) no_props k c None None
                   false false)).
Proof.
  intros c k.
  destruct (state_classes_follow_flags (fun _ => false) no_props k c None
              None false false) as (Hl & _ & _ & _ & _ & Hr & _).
  split.
  - exact (proj2 Hr eq_refl).
  - intros H. apply (proj1 Hl) in H. discriminate H.
Defined.

Lemma ghost_class_or_warning_witness :
  let k := {| ghost := Some true; block := None; iconPosition := None;
              size := None; className := None; rootClassName := None |} in
  let unbordered (v : option ButtonVariantType) :=
    match v with
    | Some "text" | Some "link" => true
    | _ => false
    end in
  ghost_warning unbordered (Some "production") (only_type type_text) k None
  = false
  /\ ghost_warning unbordered (Some "development") no_props k None = false.
Proof.
  intros k unbordered.
  pose (c := {| prefixCls := "ant-btn"; hashId := ""; cssVarCls := "";
                direction := None; compactSize := None;
                compactItemClassnames := ""; groupSize := None;
                ctxSize := None; contextClassName := None |}).
  split.
  - exact (proj1 (proj2 (ghost_class_or_warning unbordered
                           (Some "production") (only_type type_text) k c
                           None None false false)) eq_refl).
  - destruct (ghost_class_or_warning unbordered (Some "development")
                no_props k c None None false false) as (_ & _ & Hem & _).
    apply Hem. vm_compute. auto 10.
Defined.

(* ================================================================== *)
(** * Children, tag and clicks *)

(** X12: after the effect has run on an attached button, the
    two-Chinese-characters class depends on the current render only: it is
    on exactly when a space is wanted, the text is two Chinese characters,
    auto-space is on and the button is not loading, whatever the flag was
    before.  Running the effect again changes nothing, and without an
    attached element the flag is left alone. *)
Theorem twoCNChar_effect_settles
  (isTwoCNChar : string -> bool) (buttonText : string)
  (mergedInsertSpace needInserted hasTwoCNChar innerLoading : bool) :
  let after := twoCNChar_effect isTwoCNChar (Some buttonText)
                 mergedInsertSpace needInserted hasTwoCNChar in
  two_chinese_chars after mergedInsertSpace innerLoading
  = needInserted && isTwoCNChar buttonText && mergedInsertSpace
    && negb innerLoading
  /\ twoCNChar_effect isTwoCNChar (Some buttonText) mergedInsertSpace
       needInserted after = after
  /\ (mergedInsertSpace = false -> after = hasTwoCNChar)
  /\ twoCNChar_effect isTwoCNChar None mergedInsertSpace needInserted
       hasTwoCNChar = hasTwoCNChar.
Proof.
  unfold twoCNChar_effect, two_chinese_chars.
  destruct mergedInsertSpace, needInserted, hasTwoCNChar, innerLoading,
    (isTwoCNChar buttonText) eqn:E; simpl; rewrite ?E; simpl; auto.
Qed.

Lemma twoCNChar_effect_settles_witness :
  twoCNChar_effect (fun _ => true) (Some "ok") false true true = true.
Proof.
  exact (proj1 (proj2 (proj2 (twoCNChar_effect_settles (fun _ => true) "ok"
                                false true true false))) eq_refl).
Defined.

(** X13: the children are rendered exactly when [children] is truthy or
    is the number 0.  An icon-only button therefore renders no children, and
    a button without rendered children is icon-only as soon as it shows an
    icon. *)
Theorem kids_and_icon_only
  (spaceChildren : value -> bool -> value)
  (p : ButtonProps) (needInserted mergedInsertSpace innerLoading : bool) :
  (kids spaceChildren p needInserted mergedInsertSpace = None <->
   truthy (children p) = false /\ is_zero (children p) = false)
  /\ (icon_only p innerLoading = true ->
      kids spaceChildren p needInserted mergedInsertSpace = None)
  /\ (kids spaceChildren p needInserted mergedInsertSpace = None ->
      icon_only p innerLoading = innerLoading || truthy (icon p))
  /\ (is_zero (children p) = true ->
      kids spaceChildren p needInserted mergedInsertSpace
      = Some (spaceChildren (children p) (needInserted && mergedInsertSpace))
      /\ icon_only p innerLoading = false).
Proof.
  unfold kids, icon_only, iconType.
  destruct (truthy (children p)), (is_zero (children p)); simpl;
    repeat split; try discriminate; try tauto;
    try (intros _; now destruct innerLoading);
    try (intros [? ?]; discriminate).
Qed.

Lemma kids_and_icon_only_witness :
  let p := {| Button.loading := LUndefined; color := None; variant := None;
              type := None; danger := None; shape := None; disabled := None;
              children := Num (Finite 0); icon := Obj 2; href := Missing;
              onClick := None; autoInsertSpace := None |} in
  kids (fun ch _ => ch) p false true = Some (Num (Finite 0))
  /\ icon_only p false = false.
Proof.
  intros p.
  exact (proj2 (proj2 (proj2 (kids_and_icon_only (fun ch _ => ch) p
                                false true false))) eq_refl).
Defined.

(** X14: the component returns an [<a>] exactly when [href] holds a value;
    in every other case, an [href] key bound to [undefined] included, it
    returns a [<button>] whose [disabled] attribute is the merged disabled
    flag.  The button is wrapped in [Wave] exactly when the variant is not an
    unbordered one, and the [Wave] is disabled while the button is loading. *)
Theorem button_branch
  (isUnBorderedButtonVariant : option ButtonVariantType -> bool)
  (p : ButtonProps) (button_ctx : option ButtonConfig)
  (ctx_disabled : option bool) (innerLoading isMount : bool) :
  let out := render isUnBorderedButtonVariant p button_ctx ctx_disabled
               innerLoading isMount in
  ((exists attrs node, out = a_tag attrs node) <->
   exists target, href p = Given target)
  /\ (forall attrs node,
        out = button_tag attrs node ->
        b_disabled attrs = mergedDisabled p ctx_disabled
        /\ node = iconNode p innerLoading isMount
        /\ (b_wave attrs = None <->
            isUnBorderedButtonVariant (mergedVariant p button_ctx) = true)
        /\ (isUnBorderedButtonVariant (mergedVariant p button_ctx) = false ->
            b_wave attrs = Some innerLoading)).
Proof.
  intros out. subst out. unfold render.
  destruct (href p) as [| |target]; split.
  - split; [intros (? & ? & H); discriminate H
           | intros (? & H); discriminate H].
  - intros attrs node [= <- <-]. simpl.
    destruct (isUnBorderedButtonVariant _); simpl;
      repeat split; auto; discriminate.
  - split; [intros (? & ? & H); discriminate H
           | intros (? & H); discriminate H].
  - intros attrs node [= <- <-]. simpl.
    destruct (isUnBorderedButtonVariant _); simpl;
      repeat split; auto; discriminate.
  - split; eauto.
  - intros attrs node H. discriminate H.
Qed.

Lemma button_branch_witness :
  let p := {| Button.loading := LUndefined; color := None; variant := None;
              type := None; danger := None; shape := None;
              disabled := Some true; children := Str "Go";
              icon := Undefined; href := Unset; onClick := None;
              autoInsertSpace := None |} in
  match render (fun _ => false) p None None true false with
  | button_tag attrs _ =>
      b_disabled attrs = Some true /\ b_wave attrs = Some true
  | a_tag _ _ => False
  end.
Proof.
  intros p.
  destruct (proj2 (button_branch (fun _ => false) p None None true false)
              _ _ eq_refl) as (Hd & _ & _ & Hw).
  split; [exact Hd | exact (Hw eq_refl)].
Defined.

(** X15: a link button.  Whenever the handler is called it gets the event
    cast to the anchor type.  A disabled link has no [href], carries the
    disabled class and suppresses the click.  A link that is loading but not
    disabled keeps its [href] and its [tabIndex] of 0; only the click is
    suppressed, by [preventDefault]. *)
Theorem link_click_and_attributes
  (isUnBorderedButtonVariant : option ButtonVariantType -> bool)
  (p : ButtonProps) (k : Look) (c : Scope)
  (button : option ButtonConfig) (ctx_auto ctx_disabled : option bool)
  (innerLoading hasTwoCNChar isMount : bool) (target : string) (e : event) :
  href p = Given target ->
  let out := render isUnBorderedButtonVariant p button ctx_disabled
               innerLoading isMount in
  let log := handleClick p innerLoading (mergedDisabled p ctx_disabled) e in
  let names := tokens (link_class_args isUnBorderedButtonVariant p k c button
                         ctx_auto ctx_disabled innerLoading hasTwoCNChar) in
  (forall f cast e', In (call_onClick f cast e') log -> cast = AsAnchorEvent)
  /\ (flag (mergedDisabled p ctx_disabled) = true ->
      log = [preventDefault e]
      /\ In (prefixCls c ++ "-disabled") names
      /\ exists attrs node, out = a_tag attrs node /\ a_href attrs = None)
  /\ (flag (mergedDisabled p ctx_disabled) = false ->
      innerLoading = true ->
      log = [preventDefault e]
      /\ exists attrs node,
           out = a_tag attrs node
           /\ a_href attrs = Some target /\ a_tabIndex attrs = 0%Z).
Proof.
  intros Hhref out log names. subst out log names.
  unfold render, handleClick, href_in_props. rewrite Hhref.
  split; [|split].
  - destruct (innerLoading || flag (mergedDisabled p ctx_disabled)).
    + intros f cast e' [H|[]]. discriminate H.
    + destruct (onClick p); [|intros f cast e' []].
      intros f cast e' [H|[]]. now injection H as _ <- _.
  - intros Hd. rewrite Hd, orb_true_r. split; [reflexivity|]. split.
    + unfold tokens, link_class_args. apply in_flat_map.
      eexists (Keys _). split; [simpl; auto|].
      simpl. unfold keys_on. simpl. rewrite Hd. simpl. auto.
    + do 2 eexists. split; reflexivity.
  - intros Hd ->. rewrite Hd. simpl. split; [reflexivity|].
    do 2 eexists. split; [reflexivity|]. auto.
Qed.

Lemma link_click_and_attributes_witness :
  let p := {| Button.loading := LBool true; color := None; variant := None;
              type := None; danger := None; shape := None; disabled := None;
              children := Str "Go"; icon := Undefined; href := Given "/x";
              onClick := Some 7%nat; autoInsertSpace := None |} in
  handleClick p true (mergedDisabled p None) 1%nat = [preventDefault 1%nat]
  /\ exists attrs node,
       render (fun _ => false) p None None true false = a_tag attrs node
       /\ a_href attrs = Some "/x" /\ a_tabIndex attrs = 0%Z.
Proof.
  intros p.
  pose (k := {| ghost := None; block := None; iconPosition := None;
                size := None; className := None; rootClassName := None |}).
  pose (c := {| prefixCls := "ant-btn"; hashId := ""; cssVarCls := "";
                direction := None; compactSize := None;
                compactItemClassnames := ""; groupSize := None;
                ctxSize := None; contextClassName := None |}).
  exact (proj2 (proj2 (link_click_and_attributes (fun _ => false) p k c None
                         None None true false false "/x" 1%nat eq_refl))
           eq_refl eq_refl).
Defined.

(** X16: the [disabled] prop decides alone when it is given: [false]
    re-enables a button inside a disabled scope, whose clicks then reach the
    handler, and [true] disables it inside an enabled one.  Left out, the
    button takes the flag of the scope. *)
Theorem explicit_disabled_overrides_scope
  (p : ButtonProps) (ctx_disabled : option bool) (e : event) :
  (forall b, disabled p = Some b -> mergedDisabled p ctx_disabled = Some b)
  /\ (disabled p = None -> mergedDisabled p ctx_disabled = ctx_disabled)
  /\ (forall f,
        disabled p = Some false -> onClick p = Some f ->
        handleClick p false (mergedDisabled p (Some true)) e
        = [call_onClick f (if href_in_props p then AsAnchorEvent
                           else AsButtonEvent) e])
  /\ (disabled p = Some true ->
      handleClick p false (mergedDisabled p (Some false)) e
      = [preventDefault e])
  /\ (disabled p = None ->
      handleClick p false (mergedDisabled p (Some true)) e
      = [preventDefault e]).
Proof.
  unfold mergedDisabled, handleClick.
  split; [intros b ->; reflexivity|].
  split; [intros ->; reflexivity|].
  split; [intros f -> ->; reflexivity|].
  split; intros ->; reflexivity.
Qed.

Lemma explicit_disabled_overrides_scope_witness :
  let p := {| Button.loading := LUndefined; color := None; variant := None;
              type := None; danger := None; shape := None;
              disabled := Some false; children := Str "Go";
              icon := Undefined; href := Missing; onClick := Some 7%nat;
              autoInsertSpace := None |} in
  handleClick p false (mergedDisabled p (Some true)) 1%nat
  = [call_onClick 7%nat AsButtonEvent 1%nat].
Proof.
  intros p.
  exact (proj1 (proj2 (proj2 (explicit_disabled_overrides_scope p None
                                1%nat))) 7%nat eq_refl eq_refl).
Defined.

(* ================================================================== *)
(** * Further properties of the color and variant resolution *)

(** X17: a [color] without a [variant], or a [variant] without a [color],
    has no effect: the resolved pair is the same whatever the lone prop
    holds. *)
Theorem lone_color_or_variant_is_ignored :
  (forall l c c' v ty dg sh di ch ic hr oc au button,
      opt_truthy v = false ->
      mergedColorVariant
        {| Button.loading := l; color := c; variant := v; type := ty;
           danger := dg; shape := sh; disabled := di; children := ch;
           icon := ic; href := hr; onClick := oc; autoInsertSpace := au |}
        button
      = mergedColorVariant
          {| Button.loading := l; color := c'; variant := v; type := ty;
             danger := dg; shape := sh; disabled := di; children := ch;
             icon := ic; href := hr; onClick := oc; autoInsertSpace := au |}
          button)
  /\ (forall l c v v' ty dg sh di ch ic hr oc au button,
        opt_truthy c = false ->
        mergedColorVariant
          {| Button.loading := l; color := c; variant := v; type := ty;
             danger := dg; shape := sh; disabled := di; children := ch;
             icon := ic; href := hr; onClick := oc; autoInsertSpace := au |}
          button
        = mergedColorVariant
            {| Button.loading := l; color := c; variant := v'; type := ty;
               danger := dg; shape := sh; disabled := di; children := ch;
               icon := ic; href := hr; onClick := oc;
               autoInsertSpace := au |}
            button).
Proof.
  split.
  - intros l c c' v ty dg sh di ch ic hr oc au button H.
    unfold mergedColorVariant, mergedType, danger_of; simpl.
    rewrite H, !andb_false_r. reflexivity.
  - intros l c v v' ty dg sh di ch ic hr oc au button H.
    unfold mergedColorVariant, mergedType, danger_of; simpl.
    rewrite H. reflexivity.
Qed.

Lemma lone_color_or_variant_is_ignored_witness :
  mergedColorVariant
    {| Button.loading := LUndefined; color := Some "purple"; variant := None;
       type := None; danger := None; shape := None; disabled := None;
       children := Undefined; icon := Undefined; href := Missing;
       onClick := None; autoInsertSpace := None |} None
  = mergedColorVariant no_props None.
Proof.
  exact (proj1 lone_color_or_variant_is_ignored LUndefined (Some "purple")
           None None None None None None Undefined Undefined Missing None
           None None eq_refl).
Defined.

(** X18: the context is a fallback only.  With an explicit pair, a
    [type] or [danger], the resolved pair is the same in every context.
    Without them, a context that lacks a color or a variant gives
    [('default', 'outlined')], and one that has both gives its pair. *)
Theorem context_is_fallback_only
  (p : ButtonProps) (button : option ButtonConfig) :
  (guard LocalPair p button = true \/ guard LegacySugar p button = true ->
   forall button', mergedColorVariant p button'
                   = mergedColorVariant p button)
  /\ (guard LocalPair p button = false ->
      guard LegacySugar p button = false ->
      context_pair button = false ->
      mergedColorVariant p button = (Some "default", Some "outlined"))
  /\ (guard LocalPair p button = false ->
      guard LegacySugar p button = false ->
      forall b, button = Some b ->
                opt_truthy (ctx_color b) = true ->
                opt_truthy (ctx_variant b) = true ->
                mergedColorVariant p button = (ctx_color b, ctx_variant b)).
Proof.
  split; [|split].
  - intros H button'. unfold mergedColorVariant.
    simpl in H.
    destruct (opt_truthy (color p) && opt_truthy (variant p));
      [reflexivity|].
    destruct H as [H|H]; [discriminate|]. now rewrite H.
  - intros G1 G2 G3.
    now rewrite (guard_default_resolve p button G1 G2 G3).
  - intros G1 G2 b -> Hc Hv.
    rewrite (guard_context_resolve p (Some b) G1 G2)
      by (simpl; now rewrite Hc, Hv).
    reflexivity.
Qed.

Lemma context_is_fallback_only_witness :
  let solid := Some {| ctx_shape := None; ctx_color := Some "primary";
                       ctx_variant := Some "solid" |} in
  let half := Some {| ctx_shape := None; ctx_color := Some "primary";
                      ctx_variant := None |} in
  mergedColorVariant (only_type type_dashed) solid
  = mergedColorVariant (only_type type_dashed) None
  /\ mergedColorVariant no_props half = (Some "default", Some "outlined")
  /\ mergedColorVariant no_props solid = (Some "primary", Some "solid").
Proof.
  intros solid half. split; [|split].
  - exact (proj1 (context_is_fallback_only (only_type type_dashed) None)
             (or_intror eq_refl) solid).
  - exact (proj1 (proj2 (context_is_fallback_only no_props half))
             eq_refl eq_refl eq_refl).
  - exact (proj2 (proj2 (context_is_fallback_only no_props solid))
             eq_refl eq_refl _ eq_refl eq_refl eq_refl).
Defined.

(** X19: the button counts as dangerous exactly in three cases: the
    explicit pair has the color ['danger']; there is no explicit pair and
    [danger] is set; or neither explicit pair, [type] nor [danger] is given
    and the color of the context pair is ['danger'].  A legacy [type] alone
    never makes it dangerous. *)
Theorem isDanger_cases (p : ButtonProps) (button : option ButtonConfig) :
  isDanger p button = true <->
  (guard LocalPair p button = true /\ color p = Some "danger")
  \/ (guard LocalPair p button = false /\ danger_of p = true)
  \/ (guard LocalPair p button = false
      /\ guard LegacySugar p button = false
      /\ exists b, button = Some b
                   /\ opt_truthy (ctx_variant b) = true
                   /\ ctx_color b = Some "danger").
Proof.
  unfold isDanger, mergedColor.
  destruct (guard LocalPair p button) eqn:G1.
  - rewrite (guard_local_resolve p button G1). simpl.
    destruct (color p) as [col|].
    + split.
      * intros H. apply String.eqb_eq in H. subst. auto.
      * intros [[_ [= ->]]|[[H _]|[H _]]]; [reflexivity | discriminate H
                                                      | discriminate H].
    + split; [discriminate|].
      intros [[_ H]|[[H _]|[H _]]]; discriminate H.
  - destruct (guard LegacySugar p button) eqn:G2.
    + rewrite (guard_legacy_resolve p button G1 G2). simpl.
      destruct (danger_of p) eqn:D; simpl.
      * split; [auto|reflexivity].
      * split.
        -- destruct (mergedType p); simpl; intros H; discriminate H.
        -- intros [[H _]|[[_ H]|[_ [H _]]]]; discriminate H.
    + assert (D : danger_of p = false).
      { simpl in G2. apply orb_false_iff in G2. tauto. }
      destruct (context_pair button) eqn:G3.
      * rewrite (guard_context_resolve p button G1 G2 G3).
        destruct button as [b|]; [|discriminate G3]. simpl in *.
        apply andb_true_iff in G3 as [Hc Hv].
        destruct (ctx_color b) as [col|] eqn:Ec; [|discriminate Hc]. split.
        -- intros H. apply String.eqb_eq in H. subst.
           right. right. split; [reflexivity|]. split; [reflexivity|].
           exists b. repeat split; auto.
        -- intros [[H _]|[[_ H]|(_ & _ & b' & Hb & _ & Hcol)]];
             [discriminate H | congruence |].
           injection Hb as <-. rewrite Ec in Hcol. injection Hcol as ->.
           reflexivity.
      * rewrite (guard_default_resolve p button G1 G2 G3). simpl.
        split; [discriminate|].
        intros [[H _]|[[_ H]|(_ & _ & b & -> & Hv & Hc)]];
          [discriminate H | congruence |].
        simpl in G3. rewrite Hc, Hv in G3. discriminate G3.
Qed.

Lemma isDanger_cases_witness :
  let p := {| Button.loading := LUndefined; color := Some "purple";
              variant := Some "solid"; type := None; danger := Some true;
              shape := None; disabled := None; children := Undefined;
              icon := Undefined; href := Missing; onClick := None;
              autoInsertSpace := None |} in
  isDanger p None = false
  /\ isDanger (only_type type_primary) None = false.
Proof.
  intros p. split.
  - destruct (isDanger p None) eqn:E; [|reflexivity].
    apply (proj1 (isDanger_cases p None)) in E.
    destruct E as [[_ H]|[[H _]|[H _]]]; discriminate H.
  - destruct (isDanger (only_type type_primary) None) eqn:E; [|reflexivity].
    apply (proj1 (isDanger_cases (only_type type_primary) None)) in E.
    destruct E as [[H _]|[[_ H]|[_ [H _]]]]; discriminate H.
Defined.

(* ================================================================== *)
(** * Styles *)

Import Style.

Lemma lookup_set (k k' v : string) (o : CSSProperties) :
  lookup k (set k' v o) = if String.eqb k' k then Some v else lookup k o.
Proof.
  induction o as [|[k0 v0] o IH]; simpl.
  - reflexivity.
  - destruct (String.eqb k0 k') eqn:E0; simpl.
    + apply String.eqb_eq in E0. subst k0.
      now destruct (String.eqb k' k).
    + rewrite IH. destruct (String.eqb k0 k) eqn:E1; [|reflexivity].
      apply String.eqb_eq in E1. subst k0. now rewrite String.eqb_sym, E0.
Qed.

Lemma last_binding_found (k : string) (found : option string)
  (entries : list (string * string)) :
  last_binding k found entries
  = match last_binding k None entries with
    | Some v => Some v
    | None => found
    end.
Proof.
  unfold last_binding. revert found.
  induction entries as [|[k1 v1] es IH]; intros found; simpl.
  - reflexivity.
  - rewrite IH. rewrite (IH (if String.eqb k1 k then Some v1 else None)).
    destruct (fold_left _ es None); [reflexivity|].
    now destruct (String.eqb k1 k).
Qed.

Lemma lookup_copy (k : string) (src dst : CSSProperties) :
  lookup k (fold_left (fun acc e => set (fst e) (snd e) acc) src dst)
  = match last_binding k None src with
    | Some v => Some v
    | None => lookup k dst
    end.
Proof.
  revert dst. induction src as [|[k1 v1] src IH]; intros dst.
  - reflexivity.
  - change (lookup k (fold_left (fun acc e => set (fst e) (snd e) acc) src
                        (set k1 v1 dst))
            = match last_binding k (if String.eqb k1 k then Some v1 else None)
                      src with
              | Some v => Some v
              | None => lookup k dst
              end).
    rewrite IH, lookup_set,
      (last_binding_found k (if String.eqb k1 k then Some v1 else None) src).
    destruct (last_binding k None src); [reflexivity|].
    now destruct (String.eqb k1 k).
Qed.

Lemma lookup_absent (k : string) (o : CSSProperties) :
  ~ In k (map fst o) -> lookup k o = None.
Proof.
  induction o as [|[k0 v0] o IH]; simpl; intros H; [reflexivity|].
  destruct (String.eqb k0 k) eqn:E.
  - apply String.eqb_eq in E. tauto.
  - apply IH. tauto.
Qed.

Lemma last_binding_lookup (k : string) (o : CSSProperties) :
  NoDup (map fst o) -> last_binding k None o = lookup k o.
Proof.
  induction o as [|[k0 v0] o IH]; simpl; intros H; [reflexivity|].
  inversion H as [|? ? Hnot Hnd]; subst.
  change (last_binding k (if String.eqb k0 k then Some v0 else None) o
          = (if String.eqb k0 k then Some v0 else lookup k o)).
  rewrite (last_binding_found k (if String.eqb k0 k then Some v0 else None)
             o), (IH Hnd).
  destruct (String.eqb k0 k) eqn:E.
  - apply String.eqb_eq in E. subst. now rewrite (lookup_absent k o Hnot).
  - now destruct (lookup k o).
Qed.

Lemma lookup_spread (k : string) (x y : CSSProperties) :
  NoDup (map fst x) -> NoDup (map fst y) ->
  lookup k (spread (Some x) (Some y))
  = match lookup k y with
    | Some v => Some v
    | None => lookup k x
    end.
Proof.
  intros Hx Hy. unfold spread. rewrite !lookup_copy.
  rewrite (last_binding_lookup k x Hx), (last_binding_lookup k y Hy).
  simpl. now destruct (lookup k x).
Qed.

(** X20: the two style merges go opposite ways.  In the style of the
    element a property given in the [style] prop replaces the one of the
    context; in the style of the icon a property given by the context
    replaces the one of [styles.icon].  A property given on one side only is
    kept, and one given on neither side is absent. *)
Theorem style_merge_precedence
  (contextStyle customStyle styles_icon contextStyles_icon : CSSProperties)
  (k : string) :
  NoDup (map fst contextStyle) -> NoDup (map fst customStyle) ->
  NoDup (map fst styles_icon) -> NoDup (map fst contextStyles_icon) ->
  lookup k (fullStyle (Some contextStyle) (Some customStyle))
  = match lookup k customStyle with
    | Some v => Some v
    | None => lookup k contextStyle
    end
  /\ lookup k (iconStyle (Some styles_icon) (Some contextStyles_icon))
     = match lookup k contextStyles_icon with
       | Some v => Some v
       | None => lookup k styles_icon
       end
  /\ lookup k (fullStyle None (Some customStyle)) = lookup k customStyle
  /\ lookup k (fullStyle (Some contextStyle) None) = lookup k contextStyle
  /\ lookup k (iconStyle None (Some contextStyles_icon))
     = lookup k contextStyles_icon
  /\ lookup k (iconStyle (Some styles_icon) None) = lookup k styles_icon.
Proof.
  intros H1 H2 H3 H4. unfold fullStyle, iconStyle.
  split; [now apply lookup_spread|].
  split; [now apply lookup_spread|].
  split.
  { unfold spread. rewrite lookup_copy, (last_binding_lookup k _ H2).
    now destruct (lookup k customStyle). }
  split.
  { rewrite (lookup_spread k contextStyle [] H1 (NoDup_nil _)). reflexivity. }
  split.
  { rewrite (lookup_spread k [] contextStyles_icon (NoDup_nil _) H4).
    now destruct (lookup k contextStyles_icon). }
  rewrite (lookup_spread k styles_icon [] H3 (NoDup_nil _)). reflexivity.
Qed.

Lemma style_merge_precedence_witness :
  lookup "color" (fullStyle (Some [("color", "red"); ("width", "1px")])
                            (Some [("color", "blue")]))
  = Some "blue"
  /\ lookup "color" (iconStyle (Some [("color", "blue")])
                               (Some [("color", "red")]))
     = Some "red".
Proof.
  assert (N1 : NoDup (map fst [("color", "red"); ("width", "1px")])).
  { repeat constructor; simpl; intuition discriminate. }
  assert (N2 : NoDup (map fst [("color", "blue")])).
  { repeat constructor; simpl; intuition discriminate. }
  assert (N3 : NoDup (map fst [("color", "red")])).
  { repeat constructor; simpl; intuition discriminate. }
  split.
  - exact (proj1 (style_merge_precedence
                    [("color", "red"); ("width", "1px")] [("color", "blue")]
                    [("color", "blue")] [("color", "red")] "color"
                    N1 N2 N2 N3)).
  - exact (proj1 (proj2 (style_merge_precedence
                    [("color", "red"); ("width", "1px")] [("color", "blue")]
                    [("color", "blue")] [("color", "red")] "color"
                    N1 N2 N2 N3))).
Defined.
